(** * A shallow embedding of [cache.go] (package [cache]) and its properties.

    The Go value [*Cache[T]] is the record [cache] below. Go maps are
    reference values: a map lives in the heap and variables hold references,
    so the model keeps a heap of maps ([heap], [next_loc]) and [data] holds a
    reference, [None] standing for Go's nil map. Tickers and goroutines are
    explicit too: each [time.Ticker] is an entry of [tickers] (with its
    one-slot channel [tk_pending]) and each goroutine started by
    [StartAutoReload] is a program counter in [tasks]. The loader is a
    side-effecting function: its successive results are [loader 0],
    [loader 1], ... and [loader_calls] counts the invocations so far. *)

From Stdlib Require Import ZArith.
From stdpp Require Import base gmap list strings.

Open Scope Z_scope.

Module Cache.

(** Outcome of a Go call that may panic. *)
Inductive result (A : Type) : Type :=
| Ok (a : A)
| Panic (msg : string).
Arguments Ok {A} a.
Arguments Panic {A} msg.

Section Model.

Context {T : Type}.

(** Go's zero value of [T] ([var zero T]). *)
Context (zero : T).

(** What [c.loader()] returns: an error, or a map (nil or a fresh one). *)
Inductive load_outcome : Type :=
| LoadErr (e : string)
| LoadOk (m : option (gmap string T)).

(** A [time.Ticker]: its period, whether [Stop] was called, and whether its
    one-slot channel [C] holds a tick. *)
Record ticker_state : Type := {
  tk_period : Z;
  tk_stopped : bool;
  tk_pending : bool
}.

(** Program counter of the goroutine spawned by [StartAutoReload]:
    at the top of the [for] loop, blocked in the [select] on ticker [t]'s
    channel and [c.quit], about to call [c.Load()], about to run
    [c.ticker.Stop()] in the quit branch, or returned. *)
Inductive pc : Type :=
| PLoop
| PSelect (t : nat)
| PLoad
| PQuit
| PDone.

Inductive log_entry : Type :=
| LogError (e : string)
| LogReloaded (n : nat).

Record cache : Type := {
  loader : nat -> load_outcome;
  loader_calls : nat;
  interval : Z;
  heap : gmap nat (gmap string T);
  next_loc : nat;
  data : option nat;
  ticker : option nat;
  tickers : list ticker_state;
  quit_closed : bool;
  tasks : list pc;
  auto_loads : nat;
  logs : list log_entry
}.

(** ** Field updates *)

Definition set_mem (c : cache) (h : gmap nat (gmap string T)) (n : nat)
    (d : option nat) : cache :=
  {| loader := loader c; loader_calls := loader_calls c;
     interval := interval c; heap := h; next_loc := n; data := d;
     ticker := ticker c; tickers := tickers c; quit_closed := quit_closed c;
     tasks := tasks c; auto_loads := auto_loads c; logs := logs c |}.

Definition set_timer (c : cache) (iv : Z) (tk : option nat)
    (ts : list ticker_state) (q : bool) (tsk : list pc) : cache :=
  {| loader := loader c; loader_calls := loader_calls c;
     interval := iv; heap := heap c; next_loc := next_loc c; data := data c;
     ticker := tk; tickers := ts; quit_closed := q;
     tasks := tsk; auto_loads := auto_loads c; logs := logs c |}.

Definition set_calls_logs (c : cache) (n : nat) (l : list log_entry) : cache :=
  {| loader := loader c; loader_calls := n;
     interval := interval c; heap := heap c; next_loc := next_loc c;
     data := data c; ticker := ticker c; tickers := tickers c;
     quit_closed := quit_closed c; tasks := tasks c;
     auto_loads := auto_loads c; logs := l |}.

Definition set_auto_loads (c : cache) (n : nat) : cache :=
  {| loader := loader c; loader_calls := loader_calls c;
     interval := interval c; heap := heap c; next_loc := next_loc c;
     data := data c; ticker := ticker c; tickers := tickers c;
     quit_closed := quit_closed c; tasks := tasks c;
     auto_loads := n; logs := logs c |}.

Definition set_task (c : cache) (i : nat) (p : pc) : cache :=
  set_timer c (interval c) (ticker c) (tickers c) (quit_closed c)
    (<[i := p]> (tasks c)).

Definition set_tickers (c : cache) (ts : list ticker_state) : cache :=
  set_timer c (interval c) (ticker c) ts (quit_closed c) (tasks c).

(** ** The Go heap of maps *)

(** [make(map[string]T)] or any fresh map value: a new reference. *)
Definition alloc (c : cache) (m : gmap string T) : cache * nat :=
  (set_mem c (<[next_loc c := m]> (heap c)) (S (next_loc c)) (data c),
   next_loc c).

(** The contents of the map at reference [l]. *)
Definition map_at (c : cache) (l : nat) : gmap string T :=
  default ∅ (heap c !! l).

(** The contents of [c.data]; a nil map reads as empty. *)
Definition cur_map (c : cache) : gmap string T :=
  match data c with
  | None => ∅
  | Some l => map_at c l
  end.

(** ** Construction *)

(** [NewCache(loader, interval)]. The heap holds only the fresh
    [make(map[string]T)]; [quit] is a fresh open channel. *)
Definition NewCache (ld : nat -> load_outcome) (iv : Z) : cache :=
  {| loader := ld; loader_calls := 0; interval := iv;
     heap := {[0%nat := ∅]}; next_loc := 1; data := Some 0%nat;
     ticker := None; tickers := []; quit_closed := false;
     tasks := []; auto_loads := 0; logs := [] |}.

(** ** Load *)

(** [c.Load()]: call the loader; on error log and return; otherwise
    [c.data = result] and log the item count. The loader hands back a
    map of its own (a fresh reference) or nil. *)
Definition Load (c : cache) : cache :=
  let n := loader_calls c in
  let c1 := set_calls_logs c (S n) (logs c) in
  match loader c n with
  | LoadErr e => set_calls_logs c1 (S n) (logs c ++ [LogError e])
  | LoadOk None =>
      let c2 := set_mem c1 (heap c1) (next_loc c1) None in
      set_calls_logs c2 (S n) (logs c ++ [LogReloaded 0])
  | LoadOk (Some m) =>
      let '(c2, l) := alloc c1 m in
      let c3 := set_mem c2 (heap c2) (next_loc c2) (Some l) in
      set_calls_logs c3 (S n) (logs c ++ [LogReloaded (size m)])
  end.

Definition Reload (c : cache) : cache := Load c.

(** ** Point mutation and retrieval *)

(** [c.data[key] = value]: panics on a nil map. *)
Definition Add (c : cache) (key : string) (value : T) : result cache :=
  match data c with
  | None => Panic "assignment to entry in nil map"
  | Some l =>
      Ok (set_mem c (<[l := <[key := value]> (map_at c l)]> (heap c))
            (next_loc c) (data c))
  end.

(** [delete(c.data, key)]: a no-op on a nil map or an absent key. *)
Definition Delete (c : cache) (key : string) : cache :=
  match data c with
  | None => c
  | Some l =>
      set_mem c (<[l := delete key (map_at c l)]> (heap c))
        (next_loc c) (data c)
  end.

(** [c.data = make(map[string]T)]. *)
Definition Clear (c : cache) : cache :=
  let '(c1, l) := alloc c ∅ in
  set_mem c1 (heap c1) (next_loc c1) (Some l).

(** [val, ok := c.data[key]]. *)
Definition Get (c : cache) (key : string) : T * bool :=
  match data c with
  | None => (zero, false)
  | Some l =>
      match map_at c l !! key with
      | Some v => (v, true)
      | None => (zero, false)
      end
  end.

(** [GetAll]: [make] a fresh map and copy every entry; the result is the
    new reference. *)
Definition GetAll (c : cache) : cache * nat :=
  alloc c (cur_map c).

(** The [for _, v := range c.data] loops of [Find] and [FindOne], over the
    entries in the order the range visits them. *)
Fixpoint find_loop (predicate : T -> bool) (entries : list (string * T))
    (results : list T) : list T :=
  match entries with
  | [] => results
  | (_, v) :: rest =>
      find_loop predicate rest
        (if predicate v then results ++ [v] else results)
  end.

Fixpoint findone_loop (predicate : T -> bool) (entries : list (string * T))
    : T * bool :=
  match entries with
  | [] => (zero, false)
  | (_, v) :: rest => if predicate v then (v, true) else findone_loop predicate rest
  end.

(** A Go range over a map visits each entry once, in an order the
    language leaves unspecified: any permutation of the entries. *)
Definition range_order (c : cache) (entries : list (string * T)) : Prop :=
  entries ≡ₚ map_to_list (cur_map c).

(** [c.Find(predicate)] and [c.FindOne(predicate)] when the range visits
    the entries in the order [entries] (a [range_order] of [c]). *)
Definition Find (c : cache) (predicate : T -> bool)
    (entries : list (string * T)) : list T :=
  find_loop predicate entries [].

Definition FindOne (c : cache) (predicate : T -> bool)
    (entries : list (string * T)) : T * bool :=
  findone_loop predicate entries.

(** ** Auto-reload lifecycle *)

Definition new_ticker (d : Z) : ticker_state :=
  {| tk_period := d; tk_stopped := false; tk_pending := false |}.

(** [t.Stop()]: no more ticks; since Go 1.23 no stale tick is received
    after [Stop] returns, so the channel slot is emptied. *)
Definition stop_ticker (ts : list ticker_state) (t : nat) : list ticker_state :=
  match ts !! t with
  | Some k =>
      <[t := {| tk_period := tk_period k; tk_stopped := true;
                tk_pending := false |}]> ts
  | None => ts
  end.

(** [StartAutoReload]: under the lock, return if [c.ticker != nil];
    otherwise [time.NewTicker(c.interval)] (which panics on a non-positive
    duration) and spawn the goroutine. *)
Definition StartAutoReload (c : cache) : result cache :=
  match ticker c with
  | Some _ => Ok c
  | None =>
      if interval c <=? 0 then Panic "non-positive interval for NewTicker"
      else
        Ok (set_timer c (interval c) (Some (length (tickers c)))
              (tickers c ++ [new_ticker (interval c)])
              (quit_closed c) (tasks c ++ [PLoop]))
  end.

(** [StopAutoReload]: stop and clear the ticker if set, then
    [close(c.quit)], which panics on a closed channel. *)
Definition StopAutoReload (c : cache) : result cache :=
  let c1 :=
    match ticker c with
    | Some t => set_timer c (interval c) None (stop_ticker (tickers c) t)
                  (quit_closed c) (tasks c)
    | None => c
    end in
  if quit_closed c1 then Panic "close of closed channel"
  else Ok (set_timer c1 (interval c1) (ticker c1) (tickers c1) true (tasks c1)).

(** [SetInterval(interval)]. *)
Definition SetInterval (c : cache) (d : Z) : result cache :=
  match ticker c with
  | None => Ok (set_timer c d None (tickers c) (quit_closed c) (tasks c))
  | Some t =>
      let ts := stop_ticker (tickers c) t in
      if d <=? 0 then Panic "non-positive interval for NewTicker"
      else Ok (set_timer c d (Some (length ts)) (ts ++ [new_ticker d])
                 (quit_closed c) (tasks c))
  end.

(** ** The goroutine of [StartAutoReload] and the tickers

    One step of a goroutine or of the runtime. The goroutine reads
    [c.ticker] without the lock, at the [select] (to evaluate
    [c.ticker.C]) and in the quit branch ([c.ticker.Stop()]); a nil
    [c.ticker] is a nil pointer dereference there. When both cases of the
    [select] are ready either may be taken (Go picks at random). A running
    ticker may deliver a tick at any moment (time is abstracted); the
    channel has one slot, further ticks are dropped. *)
Definition nil_deref : string := "invalid memory address or nil pointer dereference".

Definition set_pending (ts : list ticker_state) (t : nat) (b : bool)
    : list ticker_state :=
  match ts !! t with
  | Some k =>
      <[t := {| tk_period := tk_period k; tk_stopped := tk_stopped k;
                tk_pending := b |}]> ts
  | None => ts
  end.

Inductive bg_step : cache -> result cache -> Prop :=
| bg_tick c t k :
    tickers c !! t = Some k -> tk_stopped k = false ->
    bg_step c (Ok (set_tickers c (set_pending (tickers c) t true)))
| bg_select_nil c i :
    tasks c !! i = Some PLoop -> ticker c = None ->
    bg_step c (Panic nil_deref)
| bg_select c i t :
    tasks c !! i = Some PLoop -> ticker c = Some t ->
    bg_step c (Ok (set_task c i (PSelect t)))
| bg_recv_tick c i t k :
    tasks c !! i = Some (PSelect t) -> tickers c !! t = Some k ->
    tk_pending k = true ->
    bg_step c (Ok (set_task (set_tickers c (set_pending (tickers c) t false)) i PLoad))
| bg_recv_quit c i t :
    tasks c !! i = Some (PSelect t) -> quit_closed c = true ->
    bg_step c (Ok (set_task c i PQuit))
| bg_load c i :
    tasks c !! i = Some PLoad ->
    bg_step c (Ok (set_task (set_auto_loads (Load c) (S (auto_loads c))) i PLoop))
| bg_quit_nil c i :
    tasks c !! i = Some PQuit -> ticker c = None ->
    bg_step c (Panic nil_deref)
| bg_quit c i t :
    tasks c !! i = Some PQuit -> ticker c = Some t ->
    bg_step c (Ok (set_task (set_tickers c (stop_ticker (tickers c) t)) i PDone)).

(** ** Calls from client goroutines *)

Inductive call : Type :=
| CLoad
| CStart
| CStop
| CSetInterval (d : Z)
| CAdd (key : string) (value : T)
| CDelete (key : string)
| CClear
| CGetAll.

Definition run_call (op : call) (c : cache) : result cache :=
  match op with
  | CLoad => Ok (Load c)
  | CStart => StartAutoReload c
  | CStop => StopAutoReload c
  | CSetInterval d => SetInterval c d
  | CAdd k v => Add c k v
  | CDelete k => Ok (Delete c k)
  | CClear => Ok (Clear c)
  | CGetAll => Ok (GetAll c).1
  end.

(** A step of the whole program that does not panic. *)
Inductive sys_step : cache -> cache -> Prop :=
| sys_call op c c' : run_call op c = Ok c' -> sys_step c c'
| sys_bg c c' : bg_step c (Ok c') -> sys_step c c'.

(** Goroutines that have not returned. *)
Definition is_live (p : pc) : bool :=
  match p with PDone => false | _ => true end.

Definition live_tasks (c : cache) : nat :=
  length (List.filter is_live (tasks c)).

(** ** Callers holding the map returned by [GetAll]

    After [r := c.GetAll()], the caller may write into the map [r]
    ([r[k] = v], [delete(r, k)]) while other calls go to the cache. *)
Inductive event : Type :=
| EAdd (key : string) (value : T)
| EDelete (key : string)
| EClear
| ELoad
| EUserSet (key : string) (value : T)
| EUserDelete (key : string).

Definition user_write (c : cache) (r : nat)
    (f : gmap string T -> gmap string T) : cache :=
  set_mem c (<[r := f (map_at c r)]> (heap c)) (next_loc c) (data c).

Definition step_event (r : nat) (e : event) (c : cache) : result cache :=
  match e with
  | EAdd k v => Add c k v
  | EDelete k => Ok (Delete c k)
  | EClear => Ok (Clear c)
  | ELoad => Ok (Load c)
  | EUserSet k v => Ok (user_write c r (<[k := v]>))
  | EUserDelete k => Ok (user_write c r (delete k))
  end.

Fixpoint run_events (r : nat) (es : list event) (c : cache) : result cache :=
  match es with
  | [] => Ok c
  | e :: es' =>
      match step_event r e c with
      | Ok c' => run_events r es' c'
      | Panic m => Panic m
      end
  end.

Definition is_user_event (e : event) : bool :=
  match e with EUserSet _ _ | EUserDelete _ => true | _ => false end.

(** The same calls without the caller's writes into [r]. *)
Definition cache_events (es : list event) : list event :=
  List.filter (fun e => negb (is_user_event e)) es.

(** The caller's writes, applied to a map. *)
Fixpoint apply_user (es : list event) (m : gmap string T) : gmap string T :=
  match es with
  | [] => m
  | EUserSet k v :: es' => apply_user es' (<[k := v]> m)
  | EUserDelete k :: es' => apply_user es' (delete k m)
  | _ :: es' => apply_user es' m
  end.

(** Every map reference held by the cache was allocated. *)
Definition wf (c : cache) : Prop :=
  forall l, data c = Some l -> (l < next_loc c)%nat.

(** Two caches that differ at most in the map at reference [r], which
    neither of them holds as [c.data]. *)
Definition sim (r : nat) (a b : cache) : Prop :=
  loader a = loader b /\ loader_calls a = loader_calls b /\
  next_loc a = next_loc b /\ data a = data b /\
  (forall l, l <> r -> heap a !! l = heap b !! l) /\
  (r < next_loc a)%nat /\ data a <> Some r.

End Model.

End Cache.

(** * Concurrent readers and writers under [c.mu]

    The interleaving semantics of [Load], [Add], [Delete], [Clear] and
    [GetAll] called from several goroutines. Each goroutine is a program
    counter. [sync.RWMutex] is the pair [w_held]/[r_count]: [Lock] waits
    until no writer and no reader hold it, [RLock] until no writer holds
    it. [Load] calls the loader outside the lock, then swaps [c.data] under
    [Lock]. [GetAll] takes [RLock], evaluates [c.data] once for its
    [range] and then copies one entry per step, reading the live map. *)
Module Concurrent.

Section Conc.

Context {T : Type}.

(** Outcome of the loader for one [Load] goroutine. A nil map result is
    left out here (it only matters to [Add], see [Cache.Add]). *)
Inductive outcome : Type :=
| Failed (e : string)
| Loaded (m : gmap string T).

Inductive wop : Type :=
| WLoad (o : outcome)
| WAdd (key : string) (value : T)
| WDelete (key : string)
| WClear.

(** Writer program counter: before the loader call ([Load] only), waiting
    for [c.mu.Lock()], holding the lock, after its write, returned. *)
Inductive wpc : Type :=
| WStart
| WWaitLock
| WLocked
| WWritten
| WDone.

(** [GetAll] program counter: before [RLock]; iterating over the map at
    reference [l] with the keys [todo] still to visit and the copy [acc]
    made so far; returned [acc]. *)
Inductive rpc : Type :=
| RStart
| RIter (l : nat) (todo : list string) (acc : gmap string T)
| RDone (acc : gmap string T).

(** [Get(key)] program counter: before [RLock]; holding it; after
    [val, ok := c.data[key]] with the read [r] (still holding it, the
    [RUnlock] is deferred); returned [r]. *)
Inductive gpc : Type :=
| GStart
| GLocked
| GRead (r : option T)
| GDone (r : option T).

Inductive thread : Type :=
| TReader (p : rpc)
| TGetter (key : string) (p : gpc)
| TWriter (op : wop) (p : wpc).

Record state : Type := {
  heap : gmap nat (gmap string T);
  next_loc : nat;
  data : nat;
  w_held : bool;
  r_count : nat;
  threads : list thread
}.

Definition cur (s : state) : gmap string T := default ∅ (heap s !! data s).

Definition map_at (s : state) (l : nat) : gmap string T :=
  default ∅ (heap s !! l).

Definition with_threads (s : state) (ts : list thread) : state :=
  {| heap := heap s; next_loc := next_loc s; data := data s;
     w_held := w_held s; r_count := r_count s; threads := ts |}.

Definition with_lock (s : state) (w : bool) (n : nat) (ts : list thread)
    : state :=
  {| heap := heap s; next_loc := next_loc s; data := data s;
     w_held := w; r_count := n; threads := ts |}.

Definition with_mem (s : state) (h : gmap nat (gmap string T)) (n : nat)
    (d : nat) (ts : list thread) : state :=
  {| heap := h; next_loc := n; data := d;
     w_held := w_held s; r_count := r_count s; threads := ts |}.

(** The body of each writer's critical section. *)
Definition write (op : wop) (s : state) (ts : list thread) : state :=
  match op with
  | WLoad (Loaded m) =>
      with_mem s (<[next_loc s := m]> (heap s)) (S (next_loc s)) (next_loc s) ts
  | WLoad (Failed _) => with_threads s ts
  | WAdd k v =>
      with_mem s (<[data s := <[k := v]> (cur s)]> (heap s)) (next_loc s)
        (data s) ts
  | WDelete k =>
      with_mem s (<[data s := delete k (cur s)]> (heap s)) (next_loc s)
        (data s) ts
  | WClear =>
      with_mem s (<[next_loc s := ∅]> (heap s)) (S (next_loc s)) (next_loc s) ts
  end.

(** One copy step of [result[k] = v] for the next key of the range. *)
Definition copy_entry (m : gmap string T) (k : string) (acc : gmap string T)
    : gmap string T :=
  match m !! k with
  | Some v => <[k := v]> acc
  | None => acc
  end.

Inductive cstep : state -> state -> Prop :=
| st_load_fail s i e :
    threads s !! i = Some (TWriter (WLoad (Failed e)) WStart) ->
    cstep s (with_threads s (<[i := TWriter (WLoad (Failed e)) WDone]> (threads s)))
| st_load_call s i m :
    threads s !! i = Some (TWriter (WLoad (Loaded m)) WStart) ->
    cstep s (with_threads s (<[i := TWriter (WLoad (Loaded m)) WWaitLock]> (threads s)))
| st_lock s i op :
    threads s !! i = Some (TWriter op WWaitLock) ->
    w_held s = false -> r_count s = 0%nat ->
    cstep s (with_lock s true 0 (<[i := TWriter op WLocked]> (threads s)))
| st_write s i op :
    threads s !! i = Some (TWriter op WLocked) ->
    cstep s (write op s (<[i := TWriter op WWritten]> (threads s)))
| st_unlock s i op :
    threads s !! i = Some (TWriter op WWritten) ->
    cstep s (with_lock s false (r_count s) (<[i := TWriter op WDone]> (threads s)))
| st_rlock s i ks :
    threads s !! i = Some (TReader RStart) ->
    w_held s = false ->
    ks ≡ₚ (map_to_list (cur s)).*1 ->
    cstep s (with_lock s false (S (r_count s))
               (<[i := TReader (RIter (data s) ks ∅)]> (threads s)))
| st_copy s i l k ks acc :
    threads s !! i = Some (TReader (RIter l (k :: ks) acc)) ->
    cstep s (with_threads s
               (<[i := TReader (RIter l ks (copy_entry (map_at s l) k acc))]> (threads s)))
| st_runlock s i l acc :
    threads s !! i = Some (TReader (RIter l [] acc)) ->
    cstep s (with_lock s (w_held s) (pred (r_count s))
               (<[i := TReader (RDone acc)]> (threads s)))
| st_get_rlock s i k :
    threads s !! i = Some (TGetter k GStart) ->
    w_held s = false ->
    cstep s (with_lock s false (S (r_count s)) (<[i := TGetter k GLocked]> (threads s)))
| st_get_read s i k :
    threads s !! i = Some (TGetter k GLocked) ->
    cstep s (with_threads s (<[i := TGetter k (GRead (cur s !! k))]> (threads s)))
| st_get_runlock s i k r :
    threads s !! i = Some (TGetter k (GRead r)) ->
    cstep s (with_lock s (w_held s) (pred (r_count s))
               (<[i := TGetter k (GDone r)]> (threads s))).

Definition start_pc (op : wop) : wpc :=
  match op with WLoad _ => WStart | _ => WWaitLock end.

Definition start_thread (t : thread) : thread :=
  match t with
  | TReader _ => TReader RStart
  | TGetter k _ => TGetter k GStart
  | TWriter op _ => TWriter op (start_pc op)
  end.

(** The cache holding [m0] with the goroutines [ts] about to start. *)
Definition init (m0 : gmap string T) (ts : list thread) : state :=
  {| heap := {[0%nat := m0]}; next_loc := 1; data := 0;
     w_held := false; r_count := 0; threads := map start_thread ts |}.

(** Point mutations and their effect on a map. *)
Inductive mutation : Type :=
| MAdd (key : string) (value : T)
| MDelete (key : string)
| MClear.

Definition apply_mutation (m : gmap string T) (mu : mutation) : gmap string T :=
  match mu with
  | MAdd k v => <[k := v]> m
  | MDelete k => delete k m
  | MClear => ∅
  end.

Definition apply_mutations (ms : list mutation) (m : gmap string T)
    : gmap string T :=
  fold_left apply_mutation ms m.

(** Goroutines holding [RLock] (inside the [range] of [GetAll]) and
    goroutines holding [Lock]. *)
Definition is_reading (t : thread) : bool :=
  match t with
  | TReader (RIter _ _ _) | TGetter _ GLocked | TGetter _ (GRead _) => true
  | _ => false
  end.

Definition is_writing (t : thread) : bool :=
  match t with TWriter _ WLocked | TWriter _ WWritten => true | _ => false end.

(** The mutex counts the goroutines that hold it, and a writer excludes
    readers. *)
Definition lock_inv (s : state) : Prop :=
  length (List.filter is_reading (threads s)) = r_count s /\
  length (List.filter is_writing (threads s)) = (if w_held s then 1 else 0)%nat /\
  (w_held s = true -> r_count s = 0%nat).

(** A [GetAll] inside its [range] reads the current [c.data], and its copy
    agrees with the current map on every key it has visited. *)
Definition reader_inv (s : state) : Prop :=
  forall i l todo acc,
    threads s !! i = Some (TReader (RIter l todo acc)) ->
    l = data s /\ NoDup todo /\
    (forall k, acc !! k = if decide (k ∈ todo) then None else cur s !! k).

(** The current map is the initial one or a map some [Load] received,
    with point mutations applied since. *)
Definition origin_inv (m0 : gmap string T) (s : state) : Prop :=
  exists base ms,
    (base = m0 \/ exists j p, threads s !! j = Some (TWriter (WLoad (Loaded base)) p)) /\
    cur s = apply_mutations ms base.

Definition inv (m0 : gmap string T) (s : state) : Prop :=
  lock_inv s /\ reader_inv s /\ origin_inv m0 s.

(** A step of goroutine [i] keeps its kind and, for a writer, its call. *)
Definition same_op (t t' : thread) : Prop :=
  match t, t' with
  | TWriter op _, TWriter op' _ => op = op'
  | TReader _, TReader _ => True
  | TGetter _ _, TGetter _ _ => True
  | _, _ => False
  end.

End Conc.

End Concurrent.

(** * Concrete inputs *)
Module Scenario.

Import Cache.

(** The loader of the end-to-end scenario: [{"a":1,"b":2}] on the first
    call, [{"a":10}] afterwards. *)
Definition e2e_loader (n : nat) : load_outcome (T := Z) :=
  match n with
  | O => LoadOk (Some (<["a"%string := 1]> {["b"%string := 2]}))
  | S _ => LoadOk (Some {["a"%string := 10]})
  end.

(** A loader that returns [nil, nil]. *)
Definition nil_loader (n : nat) : load_outcome (T := Z) := LoadOk None.

(** A loader that always fails. *)
Definition failing_loader (n : nat) : load_outcome (T := Z) :=
  LoadErr "unavailable".

(** The cache after [NewCache(failing_loader, 1)] and one
    [StopAutoReload()] without any [StartAutoReload()]. *)
Definition stopped_cache : cache (T := Z) :=
  set_timer (NewCache failing_loader 1) 1 None [] true [].

(** Two goroutines on a cache holding [{"a":1}]: a [GetAll] and a [Load]
    whose loader returns [{"a":10}]. *)
Definition conc_m0 : gmap string Z := {["a"%string := 1]}.

Definition conc_threads : list (Concurrent.thread (T := Z)) :=
  [Concurrent.TReader Concurrent.RStart;
   Concurrent.TWriter (Concurrent.WLoad (Concurrent.Loaded {["a"%string := 10]}))
     Concurrent.WStart].

(** A cache whose auto-reload goroutine is blocked in its [select] on
    ticker 0, with [c.quit] open: [NewCache(failing_loader, 1)] after
    [StartAutoReload()] once the goroutine reached its [select]. *)
Definition waiting_cache : cache (T := Z) :=
  set_timer (NewCache failing_loader 1) 1 (Some 0%nat) [new_ticker 1] false
    [PSelect 0].

End Scenario.

(** * Properties of the sequential operations *)
Module Props.

Import Cache.

Section Props.

Context {T : Type} (zero : T).

Lemma StopAutoReload_never_started ld iv :
  exists c', StopAutoReload (NewCache (T := T) ld iv) = Ok c' /\ quit_closed c' = true.
Proof. eexists. split; reflexivity. Qed.

(** C1: a second [StopAutoReload] finds [c.quit] closed and
    [close(c.quit)] panics: the cancellation channel is closed twice. *)
Theorem StopAutoReload_second_call_panics (c c' : cache (T := T)) :
  StopAutoReload c = Ok c' ->
  StopAutoReload c' = Panic "close of closed channel".
Proof.
  intros H. unfold StopAutoReload, set_timer in *.
  destruct (ticker c) as [t|] eqn:E; destruct (quit_closed c) eqn:Q;
    cbn in H; try discriminate; injection H as <-; cbn; rewrite ?E; reflexivity.
Qed.

(** C2: when the loader fails, [Load] only records the call and the
    logged error; [c.data] and everything [GetAll] and [Get] see are
    unchanged, and [Load] has no result through which the error could
    reach its caller. *)
Theorem Load_error_keeps_data (c : cache (T := T)) (e : string) :
  loader c (loader_calls c) = LoadErr e ->
  Load c = set_calls_logs c (S (loader_calls c)) (logs c ++ [LogError e]) /\
  map_at (GetAll (Load c)).1 (GetAll (Load c)).2 =
    map_at (GetAll c).1 (GetAll c).2 /\
  (forall k, Get zero (Load c) k = Get zero c k).
Proof.
  intros H. unfold Load. rewrite H.
  assert (E : set_calls_logs (set_calls_logs c (S (loader_calls c)) (logs c))
                (S (loader_calls c)) (logs c ++ [LogError e]) =
              set_calls_logs c (S (loader_calls c)) (logs c ++ [LogError e]))
    by reflexivity.
  rewrite E. split; [reflexivity|].
  unfold GetAll, alloc, map_at, Get, cur_map, map_at; cbn.
  split; [| reflexivity].
  rewrite !lookup_insert_eq. reflexivity.
Qed.

(** C3: a successful [Load] makes [c.data] the loader's map, whatever the
    cache held before: the point mutations made since the previous load
    are gone. *)
Theorem Load_success_replaces (c : cache (T := T))
    (mo : option (gmap string T)) :
  loader c (loader_calls c) = LoadOk mo ->
  cur_map (Load c) = default ∅ mo /\
  (forall k, Get zero (Load c) k =
     match default ∅ mo !! k with
     | Some v => (v, true)
     | None => (zero, false)
     end).
Proof.
  intros H. unfold Load. rewrite H.
  destruct mo as [m|]; cbn.
  - unfold cur_map, Get, map_at; cbn. rewrite lookup_insert_eq. cbn.
    split; [reflexivity | intros k; reflexivity].
  - unfold cur_map, Get; cbn. split; [reflexivity|].
    intros k. rewrite lookup_empty. reflexivity.
Qed.

Lemma Add_Get (c c' : cache (T := T)) k v :
  Add c k v = Ok c' -> Get zero c' k = (v, true).
Proof.
  unfold Add, Get, map_at. destruct (data c) as [l|] eqn:D; [|discriminate].
  intros H. injection H as <-. cbn. rewrite ?D, lookup_insert_eq. cbn.
  rewrite lookup_insert_eq. reflexivity.
Qed.

Lemma Delete_Get (c : cache (T := T)) k :
  Get zero (Delete c k) k = (zero, false).
Proof.
  unfold Delete, Get, map_at. destruct (data c) as [l|] eqn:D.
  - cbn. rewrite ?D, lookup_insert_eq. cbn. rewrite lookup_delete_eq. reflexivity.
  - rewrite D. reflexivity.
Qed.

Lemma Delete_absent (c : cache (T := T)) k :
  cur_map c !! k = None -> cur_map (Delete c k) = cur_map c.
Proof.
  unfold Delete, cur_map, map_at. destruct (data c) as [l|] eqn:D.
  - cbn. rewrite ?D, lookup_insert_eq. cbn. intros H. apply delete_id. exact H.
  - rewrite D. reflexivity.
Qed.

(** C4: after a successful [Load] whose loader returned a nil map,
    [c.data] is nil and [Add] panics instead of storing the entry. *)
Theorem Add_after_nil_load_panics (c : cache (T := T)) k v :
  loader c (loader_calls c) = LoadOk None ->
  Add (Load c) k v = Panic "assignment to entry in nil map".
Proof. intros H. unfold Load. rewrite H. reflexivity. Qed.

Lemma find_loop_app (p : T -> bool) (l : list (string * T)) acc :
  find_loop p l acc = acc ++ List.filter p (map snd l).
Proof.
  revert acc. induction l as [|[k v] l IH]; intros acc; cbn.
  - rewrite app_nil_r. reflexivity.
  - rewrite IH. destruct (p v); [rewrite <- app_assoc; reflexivity | reflexivity].
Qed.

Lemma filter_perm (p : T -> bool) (l1 l2 : list T) :
  l1 ≡ₚ l2 -> List.filter p l1 ≡ₚ List.filter p l2.
Proof.
  induction 1 as [|x l1 l2 _ IH|x y l|l1 l2 l3 _ IH1 _ IH2]; cbn.
  - constructor.
  - destruct (p x); [constructor|]; exact IH.
  - destruct (p x), (p y); first [apply perm_swap | constructor; reflexivity | reflexivity].
  - etransitivity; eassumption.
Qed.

Lemma findone_loop_spec (p : T -> bool) (l : list (string * T)) :
  match findone_loop zero p l with
  | (v, true) => p v = true /\ exists k, (k, v) ∈ l
  | (v, false) => v = zero /\ forall k v', (k, v') ∈ l -> p v' = false
  end.
Proof.
  induction l as [|[k v] l IH]; cbn.
  - split; [reflexivity|]. intros k v' Hin. inversion Hin.
  - destruct (p v) eqn:P.
    + split; [exact P|]. exists k. left.
    + destruct (findone_loop zero p l) as [w [|]].
      * destruct IH as [Hp [k' Hk]]. split; [exact Hp|]. exists k'. right. exact Hk.
      * destruct IH as [Hz Hall]. split; [exact Hz|].
        intros k' v' Hin. apply elem_of_cons in Hin as [Heq|Hin].
        -- injection Heq as -> ->. exact P.
        -- eapply Hall. exact Hin.
Qed.

(** C6: over any order of the [range], [Find] returns the stored values
    that satisfy the predicate (as a multiset), an empty slice when none
    does; [FindOne] returns a stored value satisfying it with [true], or
    the zero value with [false] when there is none. *)
Theorem Find_FindOne_spec (c : cache (T := T)) (p : T -> bool)
    (entries : list (string * T)) :
  range_order c entries ->
  Find c p entries ≡ₚ List.filter p (map snd (map_to_list (cur_map c))) /\
  ((forall k v, cur_map c !! k = Some v -> p v = false) -> Find c p entries = []) /\
  match FindOne zero c p entries with
  | (v, true) => p v = true /\ exists k, cur_map c !! k = Some v
  | (v, false) => v = zero /\ forall k v', cur_map c !! k = Some v' -> p v' = false
  end.
Proof.
  unfold range_order, Find, FindOne. intros Hperm.
  assert (Hf : find_loop p entries [] ≡ₚ
               List.filter p (map snd (map_to_list (cur_map c)))).
  { rewrite find_loop_app. cbn. apply filter_perm. apply Permutation_map. exact Hperm. }
  split; [exact Hf|]. split.
  - intros Hnone. rewrite find_loop_app. cbn.
    apply Permutation_nil. symmetry.
    assert (Hz : forall l : list (string * T),
               (forall k v, (k, v) ∈ l -> p v = false) ->
               List.filter p (map snd l) = []).
    { induction l as [|[k v] l IH]; intros Hl; cbn; [reflexivity|].
      rewrite (Hl k v (list_elem_of_here _ _)). apply IH.
      intros k' v' Hin. eapply Hl. right. exact Hin. }
    rewrite (Hz entries); [constructor|].
    intros k v Hin. eapply Hnone. apply elem_of_map_to_list.
    rewrite <- Hperm. exact Hin.
  - pose proof (findone_loop_spec p entries) as Hs.
    destruct (findone_loop zero p entries) as [v [|]].
    + destruct Hs as [Hp [k Hk]]. split; [exact Hp|]. exists k.
      apply elem_of_map_to_list. rewrite <- Hperm. exact Hk.
    + destruct Hs as [Hz Hall]. split; [exact Hz|].
      intros k v' Hl. eapply Hall. rewrite Hperm.
      apply elem_of_map_to_list. exact Hl.
Qed.

Lemma sim_Get (r : nat) (a b : cache (T := T)) k :
  sim r a b -> Get zero a k = Get zero b k.
Proof.
  intros (_ & _ & _ & HD & HH & _ & Hdr). unfold Get, map_at.
  rewrite <- HD. destruct (data a) as [l|]; [|reflexivity].
  rewrite HH; [reflexivity|]. intros ->. apply Hdr. reflexivity.
Qed.

Lemma sim_cur_map (r : nat) (a b : cache (T := T)) :
  sim r a b -> cur_map a = cur_map b.
Proof.
  intros (_ & _ & _ & HD & HH & _ & Hdr). unfold cur_map, map_at.
  rewrite <- HD. destruct (data a) as [l|]; [|reflexivity].
  rewrite HH; [reflexivity|]. intros ->. apply Hdr. reflexivity.
Qed.

Ltac alloc_close :=
  match goal with
  | |- forall l', l' <> _ -> <[?n := _]> _ !! l' = <[?n := _]> _ !! l' =>
      let l' := fresh "l" in
      intros l' ?; destruct (decide (n = l')) as [<-|?];
      [rewrite !lookup_insert_eq; reflexivity
      |rewrite !lookup_insert_ne by assumption; auto]
  | |- Some _ <> Some _ =>
      let Heq := fresh in intros Heq; injection Heq as Heq; lia
  | |- <[_ := _]> _ !! _ = _ !! _ =>
      rewrite lookup_insert_ne by lia; reflexivity
  | |- _ => lia
  end.

(** One call to the cache keeps two [sim] caches [sim] and leaves the map
    at [r] alone. *)
Lemma sim_step (r : nat) (e : event) (a b : cache (T := T)) :
  is_user_event e = false -> sim r a b ->
  match step_event r e a, step_event r e b with
  | Ok a', Ok b' => sim r a' b' /\ heap a' !! r = heap a !! r
  | Panic m1, Panic m2 => m1 = m2
  | _, _ => False
  end.
Proof.
  intros Hu Hs. pose proof Hs as (HL & HC & HN & HD & HH & Hr & Hdr).
  destruct e as [k v|k| | |k v|k]; cbn in Hu; try discriminate; cbn.
  - unfold Add. rewrite <- HD. destruct (data a) as [l|] eqn:Da; [|reflexivity].
    assert (Hl : l <> r) by (intros ->; apply Hdr; reflexivity).
    assert (Hm : map_at a l = map_at b l) by (unfold map_at; rewrite HH; auto).
    rewrite Hm. unfold sim; cbn. rewrite ?Da.
    split; [repeat split; auto|].
    + intros l' Hl'. destruct (decide (l = l')) as [<-|Hne].
      * rewrite !lookup_insert_eq. reflexivity.
      * rewrite !lookup_insert_ne by exact Hne. auto.
    + rewrite lookup_insert_ne by congruence. reflexivity.
  - unfold Delete. rewrite <- HD. destruct (data a) as [l|] eqn:Da.
    + assert (Hl : l <> r) by (intros ->; apply Hdr; reflexivity).
      assert (Hm : map_at a l = map_at b l) by (unfold map_at; rewrite HH; auto).
      rewrite Hm. unfold sim; cbn. rewrite ?Da.
      split; [repeat split; auto|].
      * intros l' Hl'. destruct (decide (l = l')) as [<-|Hne].
        -- rewrite !lookup_insert_eq. reflexivity.
        -- rewrite !lookup_insert_ne by exact Hne. auto.
      * rewrite lookup_insert_ne by congruence. reflexivity.
    + split; [|reflexivity]. exact Hs.
  - unfold Clear, alloc, sim; cbn. rewrite <- HN.
    split; [repeat split; auto|]; alloc_close.
  - unfold Load. rewrite <- HC, <- HL.
    destruct (loader a (loader_calls a)) as [err|[m|]].
    + unfold sim; cbn. split; [repeat split; auto|reflexivity].
    + unfold alloc, sim; cbn. rewrite <- HN.
      split; [repeat split; auto|]; alloc_close.
    + unfold sim; cbn. split; [repeat split; auto; discriminate|reflexivity].
Qed.

(** A write of the caller into [r] keeps [sim] with the cache that did not
    see it. *)
Lemma sim_user (r : nat) (a b : cache (T := T)) f :
  sim r a b -> sim r (user_write a r f) b /\
  heap (user_write a r f) !! r = Some (f (map_at a r)).
Proof.
  intros (HL & HC & HN & HD & HH & Hr & Hdr). unfold user_write, sim; cbn.
  split; [|apply lookup_insert_eq].
  repeat split; auto. intros l Hl. rewrite lookup_insert_ne by congruence. auto.
Qed.

Lemma sim_run (r : nat) (es : list event) (a b : cache (T := T))
    (m : gmap string T) :
  sim r a b -> heap a !! r = Some m ->
  match run_events r es a, run_events r (cache_events es) b with
  | Ok a', Ok b' => sim r a' b' /\ heap a' !! r = Some (apply_user es m)
  | Panic m1, Panic m2 => m1 = m2
  | _, _ => False
  end.
Proof.
  revert a b m. induction es as [|e es IH]; intros a b m Hs Hm.
  - cbn. split; assumption.
  - assert (Hce : cache_events (e :: es) =
                  if is_user_event e then cache_events es
                  else e :: cache_events es)
      by (unfold cache_events; cbn; destruct (is_user_event e); reflexivity).
    rewrite Hce. destruct (is_user_event e) eqn:U; cbn [run_events].
    + destruct e as [| | | |k v|k]; try discriminate; cbn;
        [destruct (sim_user r a b (<[k := v]>) Hs) as [Hs' Hm']
        |destruct (sim_user r a b (delete k) Hs) as [Hs' Hm']];
        unfold map_at in Hm'; rewrite Hm in Hm'; cbn in Hm';
        exact (IH _ _ _ Hs' Hm').
    + pose proof (sim_step r e a b U Hs) as Hst.
      destruct (step_event r e a) as [a'|m1], (step_event r e b) as [b'|m2];
        try contradiction.
      * destruct Hst as [Hs' Hr']. rewrite Hm in Hr'.
        replace (apply_user (e :: es) m) with (apply_user es m)
          by (destruct e; try discriminate; reflexivity).
        exact (IH _ _ _ Hs' Hr').
      * exact Hst.
Qed.

(** C5: after [r := c.GetAll()], whatever the caller writes into [r] and
    whatever calls go to the cache, every [Get] answers as if the caller
    had written nothing, and [r] holds the snapshot [GetAll] copied with
    only the caller's own writes applied. *)
Theorem GetAll_copy_independent (c : cache (T := T)) (es : list event) :
  wf c ->
  let '(c1, r) := GetAll c in
  match run_events r es c1, run_events r (cache_events es) c1 with
  | Ok a, Ok b =>
      (forall k, Get zero a k = Get zero b k) /\
      heap a !! r = Some (apply_user es (cur_map c))
  | Panic m1, Panic m2 => m1 = m2
  | _, _ => False
  end.
Proof.
  intros Hwf. unfold GetAll, alloc.
  set (c1 := set_mem c (<[next_loc c := cur_map c]> (heap c)) (S (next_loc c)) (data c)).
  assert (Hs : sim (next_loc c) c1 c1).
  { unfold sim, c1; cbn. repeat split; auto.
    intros Heq. apply Hwf in Heq. lia. }
  assert (Hm : heap c1 !! next_loc c = Some (cur_map c))
    by (unfold c1; cbn; apply lookup_insert_eq).
  pose proof (sim_run (next_loc c) es c1 c1 _ Hs Hm) as H.
  destruct (run_events (next_loc c) es c1) as [a|m1],
           (run_events (next_loc c) (cache_events es) c1) as [b|m2];
    try contradiction; [|exact H].
  destruct H as [Hs' Hr]. split; [|exact Hr].
  intros k. apply (sim_Get (next_loc c)). exact Hs'.
Qed.

Lemma StartAutoReload_running (c : cache (T := T)) :
  ticker c <> None -> StartAutoReload c = Ok c.
Proof.
  unfold StartAutoReload. destruct (ticker c); [reflexivity|]. congruence.
Qed.

(** C8 (as the code does it): in every state where a ticker is installed
    ([c.ticker] set: started and not stopped since, whatever happened in
    between), [StartAutoReload] changes nothing; on a cache with no ticker
    and a positive interval it installs one ticker and spawns exactly one
    goroutine, so a second [StartAutoReload] right after it spawns none. *)
Theorem StartAutoReload_twice_one_task (c : cache (T := T)) :
  (ticker c <> None -> StartAutoReload c = Ok c) /\
  (ticker c = None -> (0 < interval c)%Z ->
   exists c1, StartAutoReload c = Ok c1 /\ tasks c1 = tasks c ++ [PLoop] /\
              ticker c1 <> None /\ StartAutoReload c1 = Ok c1).
Proof.
  split; [apply StartAutoReload_running|].
  intros Hn Hi. unfold StartAutoReload. rewrite Hn.
  destruct (interval c <=? 0)%Z eqn:E; [lia|].
  eexists. split; [reflexivity|]. cbn. split; [reflexivity|].
  split; [discriminate|reflexivity].
Qed.

Lemma Load_quit_closed (c : cache (T := T)) :
  quit_closed (Load c) = quit_closed c.
Proof.
  unfold Load. destruct (loader c (loader_calls c)) as [|[m|]]; reflexivity.
Qed.

Lemma sys_step_quit_closed (c c' : cache (T := T)) :
  sys_step c c' -> quit_closed c = true -> quit_closed c' = true.
Proof.
  intros Hst Hq. destruct Hst as [op c c' Hop|c c' Hbg].
  - destruct op as [| | |d|k v|k| |]; cbn in Hop.
    + injection Hop as <-. rewrite Load_quit_closed. exact Hq.
    + unfold StartAutoReload in Hop. destruct (ticker c).
      * injection Hop as <-. exact Hq.
      * destruct (interval c <=? 0)%Z; [discriminate|]. injection Hop as <-. exact Hq.
    + unfold StopAutoReload in Hop. destruct (ticker c); cbn in Hop;
        rewrite Hq in Hop; discriminate.
    + unfold SetInterval in Hop. destruct (ticker c).
      * destruct (d <=? 0)%Z; [discriminate|]. injection Hop as <-. exact Hq.
      * injection Hop as <-. exact Hq.
    + unfold Add in Hop. destruct (data c); [|discriminate].
      injection Hop as <-. exact Hq.
    + injection Hop as <-. unfold Delete. destruct (data c); exact Hq.
    + injection Hop as <-. exact Hq.
    + injection Hop as <-. exact Hq.
  - inversion Hbg; subst; try exact Hq.
    cbn. rewrite Load_quit_closed. exact Hq.
Qed.

(** C10 (as the code does it): once [c.quit] is closed it stays closed
    in every later state, so every goroutine blocked in its [select] can
    always take the quit branch: a goroutine spawned after a [Stop] never
    waits for a tick. *)
Theorem quit_stays_closed (c c' : cache (T := T)) :
  quit_closed c = true -> rtc sys_step c c' ->
  quit_closed c' = true /\
  (forall i t, tasks c' !! i = Some (PSelect t) ->
     bg_step c' (Ok (set_task c' i PQuit))).
Proof.
  intros Hq Hr. induction Hr as [c|c c1 c' Hst _ IH].
  - split; [exact Hq|]. intros i t Hi. eapply bg_recv_quit; eassumption.
  - apply IH. eapply sys_step_quit_closed; eassumption.
Qed.

(** C7: [NewCache] holds an empty map, the given loader and interval, no
    ticker and no goroutine, and has not called the loader. *)
Theorem NewCache_spec (ld : nat -> load_outcome (T := T)) (iv : Z) :
  let c := NewCache ld iv in
  cur_map c = ∅ /\ loader c = ld /\ interval c = iv /\ ticker c = None /\
  tasks c = [] /\ quit_closed c = false /\ loader_calls c = 0%nat /\
  logs c = [].
Proof.
  cbn. unfold cur_map, map_at; cbn. rewrite lookup_singleton_eq.
  repeat split; reflexivity.
Qed.

End Props.
End Props.

(** * Atomicity of [GetAll] against reloads and point mutations *)
Module ConcProps.

Import Concurrent.

Section ConcProps.

Context {T : Type}.

Lemma filter_length_insert {A} (f : A -> bool) (l : list A) i x y :
  l !! i = Some y ->
  (length (List.filter f (<[i := x]> l)) + (if f y then 1 else 0) =
   length (List.filter f l) + (if f x then 1 else 0))%nat.
Proof.
  revert i. induction l as [|z l IH]; intros [|i] H; try discriminate.
  - cbn in H. injection H as ->.
    change (<[0%nat := x]> (y :: l)) with (x :: l). cbn [List.filter].
    destruct (f x), (f y); cbn [length]; lia.
  - cbn in H. specialize (IH i H).
    change (<[S i := x]> (z :: l)) with (z :: <[i := x]> l). cbn [List.filter].
    destruct (f z); cbn [length]; lia.
Qed.

Lemma filter_length_in {A} (f : A -> bool) (l : list A) i y :
  l !! i = Some y -> f y = true -> (1 <= length (List.filter f l))%nat.
Proof.
  revert i. induction l as [|z l IH]; intros [|i] H Hf; cbn in *; try discriminate.
  - injection H as ->. rewrite Hf. cbn. lia.
  - specialize (IH i H Hf). destruct (f z); cbn; lia.
Qed.

Lemma lookup_insert_thread (ts : list (thread (T := T))) i j t' t2 :
  <[i := t']> ts !! j = Some t2 ->
  (i = j /\ t' = t2) \/ (i <> j /\ ts !! j = Some t2).
Proof.
  intros H. apply list_lookup_insert_Some in H as [(? & ? & _)|(? & ?)]; auto.
Qed.

Lemma keys_lookup_none (m : gmap string T) (ks : list string) k :
  ks ≡ₚ (map_to_list m).*1 -> k ∉ ks -> m !! k = None.
Proof.
  intros Hp Hk. destruct (m !! k) as [v|] eqn:E; [|reflexivity].
  exfalso. apply Hk. rewrite Hp. apply list_elem_of_fmap.
  exists (k, v). split; [reflexivity|]. apply elem_of_map_to_list. exact E.
Qed.

(** Readers cannot be inside the [range] while a writer holds the lock. *)
Lemma writer_excludes_readers (s : state (T := T)) i t j t2 :
  lock_inv s -> threads s !! i = Some t -> is_writing t = true ->
  threads s !! j = Some t2 -> is_reading t2 = false.
Proof.
  intros (Hr & Hw & Hx) Hi Ht Hj.
  pose proof (filter_length_in _ _ _ _ Hi Ht) as H1.
  destruct (w_held s); [|lia].
  specialize (Hx eq_refl). destruct (is_reading t2) eqn:E; [|reflexivity].
  pose proof (filter_length_in _ _ _ _ Hj E). lia.
Qed.

Lemma lock_inv_same (s s' : state (T := T)) i t t' :
  lock_inv s -> threads s !! i = Some t ->
  threads s' = <[i := t']> (threads s) ->
  is_reading t' = is_reading t -> is_writing t' = is_writing t ->
  r_count s' = r_count s -> w_held s' = w_held s ->
  lock_inv s'.
Proof.
  intros (Hr & Hw & Hx) Hi Hts HR HW Hrc Hwh.
  pose proof (filter_length_insert is_reading _ _ t' _ Hi) as E1.
  pose proof (filter_length_insert is_writing _ _ t' _ Hi) as E2.
  rewrite HR in E1. rewrite HW in E2.
  unfold lock_inv. rewrite Hts, Hrc, Hwh. split; [|split]; [lia|lia|exact Hx].
Qed.

Lemma reader_inv_other (s s' : state (T := T)) i t' :
  reader_inv s -> heap s' = heap s -> data s' = data s ->
  threads s' = <[i := t']> (threads s) ->
  (forall l todo acc, t' <> TReader (RIter l todo acc)) ->
  reader_inv s'.
Proof.
  intros Hinv Hh Hd Hts Ht' j l todo acc Hj.
  rewrite Hts in Hj. unfold cur. rewrite Hh, Hd.
  apply lookup_insert_thread in Hj as [[-> Heq]|[_ Hj]];
    [exfalso; exact (Ht' _ _ _ Heq)|].
  exact (Hinv _ _ _ _ Hj).
Qed.

Lemma origin_other (m0 : gmap string T) (s s' : state) i t t' :
  origin_inv m0 s -> cur s' = cur s -> threads s !! i = Some t ->
  threads s' = <[i := t']> (threads s) -> same_op t t' ->
  origin_inv m0 s'.
Proof.
  intros (base & ms & Hb & Hc) Hcur Hi Hts Hsame.
  exists base, ms. split; [|congruence].
  destruct Hb as [->|(j & p & Hj)]; [left; reflexivity|right].
  rewrite Hts. destruct (decide (i = j)) as [<-|Hne].
  - rewrite Hi in Hj. injection Hj as ->.
    destruct t' as [| |op' p']; cbn in Hsame; [contradiction|contradiction|]. subst op'.
    exists i, p'. apply list_lookup_insert_eq. eapply lookup_lt_Some. exact Hi.
  - exists j, p. rewrite list_lookup_insert_ne by exact Hne. exact Hj.
Qed.

Lemma write_threads (op : wop (T := T)) s ts : threads (write op s ts) = ts.
Proof. destruct op as [[]| | |]; reflexivity. Qed.

Lemma write_lock (op : wop (T := T)) s ts :
  w_held (write op s ts) = w_held s /\ r_count (write op s ts) = r_count s.
Proof. destruct op as [[]| | |]; split; reflexivity. Qed.

Lemma apply_mutations_snoc (ms : list (mutation (T := T))) mu base :
  apply_mutations (ms ++ [mu]) base = apply_mutation (apply_mutations ms base) mu.
Proof. unfold apply_mutations. rewrite fold_left_app. reflexivity. Qed.

(** [origin_inv] across a point mutation of the current map. *)
Lemma origin_mutation (m0 : gmap string T) (s s' : state) i t t' mu :
  origin_inv m0 s -> cur s' = apply_mutation (cur s) mu ->
  threads s !! i = Some t -> threads s' = <[i := t']> (threads s) ->
  same_op t t' -> origin_inv m0 s'.
Proof.
  intros Ho Hcur Hi Hts Hsame.
  destruct (origin_other m0 s (with_threads s (threads s')) i t t' Ho eq_refl Hi Hts Hsame)
    as (base & ms & Hb & Hc).
  exists base, (ms ++ [mu]). split; [exact Hb|].
  change (cur (with_threads s (threads s'))) with (cur s) in Hc.
  rewrite apply_mutations_snoc, Hcur, Hc. reflexivity.
Qed.

Lemma inv_init (m0 : gmap string T) (ts : list thread) : inv m0 (init m0 ts).
Proof.
  assert (Hst : forall t, is_reading (start_thread (T := T) t) = false /\
                          is_writing (start_thread (T := T) t) = false).
  { intros [p|k p|op p]; [split; reflexivity|split; reflexivity|].
    destruct op; split; reflexivity. }
  split; [|split].
  - unfold lock_inv; cbn.
    assert (H0 : forall f : thread -> bool,
               (forall t, f (start_thread t) = false) ->
               length (List.filter f (map start_thread ts)) = 0%nat).
    { intros f Hf. induction ts as [|t ts IH]; cbn; [reflexivity|].
      rewrite Hf. exact IH. }
    split; [|split; [|discriminate]].
    + apply H0. intros t. apply Hst.
    + apply H0. intros t. apply Hst.
  - intros j l todo acc Hj. cbn in Hj.
    apply list_lookup_fmap_Some in Hj as (t & Heq & _).
    destruct t as [p|k p|op p]; cbn in Heq; discriminate.
  - exists m0, []. split; [left; reflexivity|].
    unfold cur; cbn. rewrite lookup_singleton_eq. reflexivity.
Qed.

Lemma decide_cons_ne (k k' : string) (ks : list string) (A : Type) (x y : A) :
  k' <> k ->
  (if decide (k' ∈ k :: ks) then x else y) = (if decide (k' ∈ ks) then x else y).
Proof.
  intros Hne. destruct (decide (k' ∈ k :: ks)) as [H1|H1], (decide (k' ∈ ks)) as [H2|H2];
    try reflexivity; exfalso.
  - apply elem_of_cons in H1 as [->|H1]; [apply Hne; reflexivity|contradiction].
  - apply H1. right. exact H2.
Qed.

(** Every step keeps the invariant. *)
Lemma inv_step (m0 : gmap string T) (s s' : state) :
  inv m0 s -> cstep s s' -> inv m0 s'.
Proof.
  intros (HL & HR & HO) Hst.
  destruct Hst as [s i e Hi|s i m Hi|s i op Hi Hw Hr|s i op Hi|s i op Hi
                  |s i ks Hi Hw Hperm|s i l k ks acc Hi|s i l acc Hi
                  |s i k Hi Hw|s i k Hi|s i k r Hi].
  - (* the loader failed *)
    split; [|split].
    + eapply lock_inv_same; [exact HL|exact Hi|reflexivity..].
    + eapply reader_inv_other; [exact HR|reflexivity|reflexivity|reflexivity|discriminate].
    + eapply origin_other; [exact HO|reflexivity|exact Hi|reflexivity|reflexivity].
  - (* the loader returned *)
    split; [|split].
    + eapply lock_inv_same; [exact HL|exact Hi|reflexivity..].
    + eapply reader_inv_other; [exact HR|reflexivity|reflexivity|reflexivity|discriminate].
    + eapply origin_other; [exact HO|reflexivity|exact Hi|reflexivity|reflexivity].
  - (* c.mu.Lock() *)
    split; [|split].
    + destruct HL as (H1 & H2 & H3).
      pose proof (filter_length_insert is_reading _ _ (TWriter op WLocked) _ Hi) as E1.
      pose proof (filter_length_insert is_writing _ _ (TWriter op WLocked) _ Hi) as E2.
      cbn [is_reading is_writing] in E1, E2. rewrite Hw in H2.
      unfold lock_inv. cbn [threads r_count w_held with_lock].
      split; [lia|split; [lia|intros _; reflexivity]].
    + eapply reader_inv_other; [exact HR|reflexivity|reflexivity|reflexivity|discriminate].
    + eapply origin_other; [exact HO|reflexivity|exact Hi|reflexivity|reflexivity].
  - (* the write under the lock *)
    destruct (write_lock op s (<[i := TWriter op WWritten]> (threads s))) as [Ew Er].
    split; [|split].
    + eapply lock_inv_same; [exact HL|exact Hi|apply write_threads|reflexivity|reflexivity|exact Er|exact Ew].
    + intros j l todo acc Hj. rewrite write_threads in Hj.
      apply lookup_insert_thread in Hj as [[-> Heq]|[_ Hj]]; [discriminate|].
      pose proof (writer_excludes_readers s i _ j _ HL Hi eq_refl Hj). discriminate.
    + destruct op as [[e|m]|k v|k|].
      * eapply origin_other; [exact HO|reflexivity|exact Hi|reflexivity|reflexivity].
      * exists m, []. split.
        -- right. exists i, WWritten. cbn. apply list_lookup_insert_eq.
           eapply lookup_lt_Some. exact Hi.
        -- unfold cur. cbn. rewrite lookup_insert_eq. reflexivity.
      * eapply (origin_mutation m0 s _ i _ _ (MAdd k v));
          [exact HO| |exact Hi|reflexivity|reflexivity].
        unfold cur. cbn. rewrite lookup_insert_eq. reflexivity.
      * eapply (origin_mutation m0 s _ i _ _ (MDelete k));
          [exact HO| |exact Hi|reflexivity|reflexivity].
        unfold cur. cbn. rewrite lookup_insert_eq. reflexivity.
      * eapply (origin_mutation m0 s _ i _ _ MClear);
          [exact HO| |exact Hi|reflexivity|reflexivity].
        unfold cur. cbn. rewrite lookup_insert_eq. reflexivity.
  - (* c.mu.Unlock() *)
    split; [|split].
    + destruct HL as (H1 & H2 & H3).
      pose proof (filter_length_insert is_reading _ _ (TWriter op WDone) _ Hi) as E1.
      pose proof (filter_length_insert is_writing _ _ (TWriter op WDone) _ Hi) as E2.
      pose proof (filter_length_in is_writing _ _ _ Hi eq_refl) as E3.
      cbn [is_reading is_writing] in E1, E2.
      unfold lock_inv. cbn [threads r_count w_held with_lock].
      destruct (w_held s); [|lia].
      split; [lia|split; [lia|discriminate]].
    + eapply reader_inv_other; [exact HR|reflexivity|reflexivity|reflexivity|discriminate].
    + eapply origin_other; [exact HO|reflexivity|exact Hi|reflexivity|reflexivity].
  - (* c.mu.RLock() and the range evaluates c.data *)
    split; [|split].
    + destruct HL as (H1 & H2 & H3).
      pose proof (filter_length_insert is_reading _ _ (TReader (RIter (data s) ks ∅)) _ Hi) as E1.
      pose proof (filter_length_insert is_writing _ _ (TReader (RIter (data s) ks ∅)) _ Hi) as E2.
      cbn [is_reading is_writing] in E1, E2. rewrite Hw in H2.
      unfold lock_inv. cbn [threads r_count w_held with_lock].
      split; [lia|split; [lia|discriminate]].
    + intros j l todo acc Hj. cbn [threads with_lock] in Hj.
      apply lookup_insert_thread in Hj as [[-> Heq]|[_ Hj]].
      * injection Heq as <- <- <-. split; [reflexivity|]. split.
        -- rewrite Hperm. apply NoDup_fst_map_to_list.
        -- intros k. rewrite lookup_empty.
           destruct (decide (k ∈ ks)) as [_|Hk]; [reflexivity|].
           symmetry. change (cur (with_lock s false (S (r_count s))
                              (<[j := TReader (RIter (data s) ks ∅)]> (threads s))))
                       with (cur s).
           eapply keys_lookup_none; eassumption.
      * exact (HR _ _ _ _ Hj).
    + eapply origin_other; [exact HO|reflexivity|exact Hi|reflexivity|exact I].
  - (* one entry copied *)
    split; [|split].
    + eapply lock_inv_same; [exact HL|exact Hi|reflexivity..].
    + intros j l' todo acc' Hj. cbn [threads with_threads] in Hj.
      apply lookup_insert_thread in Hj as [[-> Heq]|[_ Hj]].
      * injection Heq as <- <- <-.
        destruct (HR _ _ _ _ Hi) as (-> & Hnd & Hacc).
        apply NoDup_cons in Hnd as [Hk Hnd].
        split; [reflexivity|]. split; [exact Hnd|].
        change (cur (with_threads s (<[j := TReader (RIter (data s) ks
                  (copy_entry (map_at s (data s)) k acc))]> (threads s))))
          with (cur s).
        change (map_at s (data s)) with (cur s).
        intros k'. unfold copy_entry.
        destruct (decide (k' = k)) as [->|Hne].
        -- destruct (decide (k ∈ ks)) as [Hin|_]; [contradiction|].
           destruct (cur s !! k) as [v|] eqn:E.
           ++ apply lookup_insert_eq.
           ++ rewrite Hacc. destruct (decide (k ∈ k :: ks)) as [_|Hn];
                [reflexivity|exfalso; apply Hn; left].
        -- rewrite <- (decide_cons_ne k k' ks _ None (cur s !! k') Hne), <- Hacc.
           destruct (cur s !! k); [|reflexivity].
           apply lookup_insert_ne. intros ->. apply Hne. reflexivity.
      * exact (HR _ _ _ _ Hj).
    + eapply origin_other; [exact HO|reflexivity|exact Hi|reflexivity|exact I].
  - (* c.mu.RUnlock() *)
    split; [|split].
    + destruct HL as (H1 & H2 & H3).
      pose proof (filter_length_insert is_reading _ _ (TReader (RDone acc)) _ Hi) as E1.
      pose proof (filter_length_insert is_writing _ _ (TReader (RDone acc)) _ Hi) as E2.
      pose proof (filter_length_in is_reading _ _ _ Hi eq_refl) as E3.
      cbn [is_reading is_writing] in E1, E2.
      unfold lock_inv. cbn [threads r_count w_held with_lock].
      split; [lia|split; [lia|intros Hw; specialize (H3 Hw); lia]].
    + eapply reader_inv_other; [exact HR|reflexivity|reflexivity|reflexivity|discriminate].
    + eapply origin_other; [exact HO|reflexivity|exact Hi|reflexivity|exact I].
  - (* Get: c.mu.RLock() *)
    split; [|split].
    + destruct HL as (H1 & H2 & H3).
      pose proof (filter_length_insert is_reading _ _ (TGetter k GLocked) _ Hi) as E1.
      pose proof (filter_length_insert is_writing _ _ (TGetter k GLocked) _ Hi) as E2.
      cbn [is_reading is_writing] in E1, E2. rewrite Hw in H2.
      unfold lock_inv. cbn [threads r_count w_held with_lock].
      split; [lia|split; [lia|discriminate]].
    + eapply reader_inv_other; [exact HR|reflexivity|reflexivity|reflexivity|discriminate].
    + eapply origin_other; [exact HO|reflexivity|exact Hi|reflexivity|exact I].
  - (* Get: val, ok := c.data[key] *)
    split; [|split].
    + eapply lock_inv_same; [exact HL|exact Hi|reflexivity..].
    + eapply reader_inv_other; [exact HR|reflexivity|reflexivity|reflexivity|discriminate].
    + eapply origin_other; [exact HO|reflexivity|exact Hi|reflexivity|exact I].
  - (* Get: deferred c.mu.RUnlock() *)
    split; [|split].
    + destruct HL as (H1 & H2 & H3).
      pose proof (filter_length_insert is_reading _ _ (TGetter k (GDone r)) _ Hi) as E1.
      pose proof (filter_length_insert is_writing _ _ (TGetter k (GDone r)) _ Hi) as E2.
      pose proof (filter_length_in is_reading _ _ _ Hi eq_refl) as E3.
      cbn [is_reading is_writing] in E1, E2.
      unfold lock_inv. cbn [threads r_count w_held with_lock].
      split; [lia|split; [lia|intros Hw; specialize (H3 Hw); lia]].
    + eapply reader_inv_other; [exact HR|reflexivity|reflexivity|reflexivity|discriminate].
    + eapply origin_other; [exact HO|reflexivity|exact Hi|reflexivity|exact I].
Qed.

Lemma inv_reachable (m0 : gmap string T) (s s' : state) :
  rtc cstep s s' -> inv m0 s -> inv m0 s'.
Proof.
  induction 1 as [s|s s1 s' Hst _ IH]; intros Hinv; [exact Hinv|].
  apply IH. eapply inv_step; eassumption.
Qed.

Lemma get_read_value (s s' : state (T := T)) i0 k0 r0 :
  cstep s s' -> threads s !! i0 = Some (TGetter k0 GLocked) ->
  threads s' !! i0 = Some (TGetter k0 (GRead r0)) -> r0 = cur s !! k0.
Proof.
  intros Hst Hi0 Hi0'.
  destruct Hst as [s i e Hi|s i m Hi|s i op Hi Hw Hr|s i op Hi|s i op Hi
                  |s i ks Hi Hw Hperm|s i l k ks acc Hi|s i l acc Hi
                  |s i k Hi Hw|s i k Hi|s i k r Hi];
    cbn [threads with_threads with_lock] in Hi0';
    try rewrite write_threads in Hi0';
    apply lookup_insert_thread in Hi0' as [[<- Heq]|[_ Hj]];
    try discriminate; congruence.
Qed.

(** C9: in every interleaving of [GetAll] and [Get] goroutines with
    [Load], [Add], [Delete] and [Clear] goroutines, (1) a [GetAll] that
    has copied its last entry (its next step releases [RLock] and returns
    [acc]) holds exactly the cache's map at that instant, and (2) the value
    a [Get] reads is the one the cache's map holds at the instant of the
    read; in both cases that map is the map the cache started with or the
    map some [Load] received, with point mutations applied on top: never a
    mix of two maps. *)
Theorem GetAll_Get_atomic (m0 : gmap string T) (ts : list thread) (s : state) :
  rtc cstep (init m0 ts) s ->
  (forall i l (acc : gmap string T),
     threads s !! i = Some (TReader (RIter l [] acc)) ->
     acc = cur s /\
     exists base ms,
       (base = m0 \/ exists j p, threads s !! j = Some (TWriter (WLoad (Loaded base)) p)) /\
       acc = apply_mutations ms base) /\
  (forall s' i k r,
     threads s !! i = Some (TGetter k GLocked) -> cstep s s' ->
     threads s' !! i = Some (TGetter k (GRead r)) ->
     r = cur s !! k /\
     exists base ms,
       (base = m0 \/ exists j p, threads s !! j = Some (TWriter (WLoad (Loaded base)) p)) /\
       r = apply_mutations ms base !! k).
Proof.
  intros Hr.
  destruct (inv_reachable m0 _ _ Hr (inv_init m0 ts)) as (_ & HR & HO).
  destruct HO as (base & ms & Hb & Hc).
  split.
  - intros i l acc Hi.
    destruct (HR _ _ _ _ Hi) as (_ & _ & Hacc).
    assert (E : acc = cur s).
    { apply map_eq. intros k. rewrite Hacc.
      destruct (decide (k ∈ [])) as [Hk|_]; [inversion Hk|reflexivity]. }
    split; [exact E|]. exists base, ms. split; [exact Hb|]. rewrite E. exact Hc.
  - intros s' i k r Hi Hst Hi'.
    pose proof (get_read_value s s' i k r Hst Hi Hi') as E.
    split; [exact E|]. exists base, ms. split; [exact Hb|]. rewrite E, Hc. reflexivity.
Qed.

End ConcProps.

End ConcProps.

(** * Further properties of the sequential operations *)
Module More.

Import Cache.

Section More.

Context {T : Type} (zero : T).

Lemma Get_cur_map (c : cache (T := T)) k :
  Get zero c k = match cur_map c !! k with
                 | Some v => (v, true)
                 | None => (zero, false)
                 end.
Proof.
  unfold Get, cur_map. destruct (data c); [reflexivity|].
  rewrite lookup_empty. reflexivity.
Qed.

Lemma Add_Some (c : cache (T := T)) l k v :
  data c = Some l ->
  exists c', Add c k v = Ok c' /\ cur_map c' = <[k := v]> (cur_map c) /\
             data c' = data c.
Proof.
  intros D. unfold Add. rewrite D. eexists. split; [reflexivity|].
  unfold cur_map, map_at; cbn. rewrite ?D, lookup_insert_eq. split; reflexivity.
Qed.

Lemma Delete_cur (c : cache (T := T)) k :
  cur_map (Delete c k) = delete k (cur_map c) /\ data (Delete c k) = data c.
Proof.
  unfold Delete, cur_map, map_at. destruct (data c) as [l|] eqn:D.
  - cbn. rewrite ?D, lookup_insert_eq. split; reflexivity.
  - rewrite D. split; [symmetry; apply delete_empty|reflexivity].
Qed.

Lemma Load_tasks (c : cache (T := T)) : tasks (Load c) = tasks c.
Proof. unfold Load. destruct (loader c (loader_calls c)) as [|[m|]]; reflexivity. Qed.

Lemma Load_tickers (c : cache (T := T)) : tickers (Load c) = tickers c.
Proof. unfold Load. destruct (loader c (loader_calls c)) as [|[m|]]; reflexivity. Qed.

Lemma Load_wf (c : cache (T := T)) : wf c -> wf (Load c).
Proof.
  unfold wf, Load. intros H l.
  destruct (loader c (loader_calls c)) as [e|[m|]]; cbn.
  - apply H.
  - intros [= <-]. lia.
  - discriminate.
Qed.

Lemma wf_step (c c' : cache (T := T)) : sys_step c c' -> wf c -> wf c'.
Proof.
  intros Hst H. destruct Hst as [op c c' Hop|c c' Hbg].
  - destruct op as [| | |d|k v|k| |]; cbn in Hop.
    + injection Hop as <-. apply Load_wf. exact H.
    + unfold StartAutoReload in Hop. destruct (ticker c).
      * injection Hop as <-. exact H.
      * destruct (interval c <=? 0)%Z; [discriminate|]. injection Hop as <-. exact H.
    + unfold StopAutoReload in Hop. destruct (ticker c); cbn in Hop;
        destruct (quit_closed c); try discriminate; injection Hop as <-; exact H.
    + unfold SetInterval in Hop. destruct (ticker c).
      * destruct (d <=? 0)%Z; [discriminate|]. injection Hop as <-. exact H.
      * injection Hop as <-. exact H.
    + unfold Add in Hop. destruct (data c) eqn:D; [|discriminate].
      injection Hop as <-. unfold wf; cbn. rewrite <- D. exact H.
    + injection Hop as <-. unfold Delete. destruct (data c) eqn:D; [|exact H].
      unfold wf; cbn. rewrite <- D. exact H.
    + injection Hop as <-. unfold wf; cbn. intros l [= <-]. lia.
    + injection Hop as <-. unfold wf in *; cbn. intros l Hl. apply H in Hl. lia.
  - inversion Hbg; subst; try exact H.
    unfold wf; cbn. apply Load_wf. exact H.
Qed.

Lemma wf_reachable (ld : nat -> load_outcome (T := T)) iv (c : cache (T := T)) :
  rtc sys_step (NewCache ld iv) c -> wf c.
Proof.
  intros Hr. assert (H0 : wf (NewCache ld iv)) by (intros l [= <-]; cbn; lia).
  revert H0. induction Hr as [c|c c1 c' Hst _ IH]; intros H0; [exact H0|].
  apply IH. eapply wf_step; eassumption.
Qed.

Lemma stop_ticker_length (ts : list ticker_state) t :
  length (stop_ticker ts t) = length ts.
Proof. unfold stop_ticker. destruct (ts !! t); [apply length_insert|reflexivity]. Qed.

Lemma stop_ticker_at (ts : list ticker_state) t :
  (t < length ts)%nat ->
  exists k, stop_ticker ts t !! t = Some k /\ tk_stopped k = true /\
            tk_pending k = false.
Proof.
  intros H. unfold stop_ticker. destruct (ts !! t) eqn:E.
  - eexists. split; [apply list_lookup_insert_eq; exact H|]. split; reflexivity.
  - apply lookup_ge_None_1 in E. lia.
Qed.

Lemma stop_ticker_silent (ts : list ticker_state) t t' k :
  ts !! t = Some k -> tk_stopped k = true -> tk_pending k = false ->
  exists k', stop_ticker ts t' !! t = Some k' /\ tk_stopped k' = true /\
             tk_pending k' = false.
Proof.
  intros H Hs Hp. unfold stop_ticker. destruct (ts !! t') as [k0|] eqn:E.
  - destruct (decide (t' = t)) as [->|Hne].
    + eexists. split; [apply list_lookup_insert_eq; eapply lookup_lt_Some; exact H|].
      split; reflexivity.
    + exists k. rewrite list_lookup_insert_ne by exact Hne. auto.
  - exists k. auto.
Qed.

Lemma set_pending_silent (ts : list ticker_state) t t' b k :
  ts !! t = Some k -> tk_stopped k = true -> tk_pending k = false ->
  (t' <> t \/ b = false) ->
  exists k', set_pending ts t' b !! t = Some k' /\ tk_stopped k' = true /\
             tk_pending k' = false.
Proof.
  intros H Hs Hp Hb. unfold set_pending. destruct (ts !! t') as [k0|] eqn:E.
  - destruct (decide (t' = t)) as [->|Hne].
    + rewrite H in E. injection E as <-.
      destruct Hb as [Hb | ->]; [congruence|].
      eexists. split; [apply list_lookup_insert_eq; eapply lookup_lt_Some; exact H|].
      split; [exact Hs|reflexivity].
    + exists k. rewrite list_lookup_insert_ne by exact Hne. auto.
  - exists k. auto.
Qed.

(** One step of the program keeps a goroutine blocked in its [select] on
    a stopped ticker with no tick pending, unless [c.quit] gets closed. *)
Lemma silent_step (c c' : cache (T := T)) i t :
  sys_step c c' -> quit_closed c = false ->
  tasks c !! i = Some (PSelect t) ->
  (exists k, tickers c !! t = Some k /\ tk_stopped k = true /\ tk_pending k = false) ->
  quit_closed c' = true \/
  (tasks c' !! i = Some (PSelect t) /\
   exists k, tickers c' !! t = Some k /\ tk_stopped k = true /\ tk_pending k = false).
Proof.
  intros Hst Hq Hi (k & Hk & Hs & Hp).
  destruct Hst as [op c c' Hop|c c' Hbg].
  - destruct op as [| | |d|k0 v|k0| |]; cbn in Hop.
    + injection Hop as <-. right. rewrite Load_tasks, Load_tickers.
      split; [exact Hi|exists k; auto].
    + unfold StartAutoReload in Hop. destruct (ticker c).
      * injection Hop as <-. right. split; [exact Hi|exists k; auto].
      * destruct (interval c <=? 0)%Z; [discriminate|]. injection Hop as <-.
        right. cbn. split; [apply lookup_app_l_Some; exact Hi|].
        exists k. split; [apply lookup_app_l_Some; exact Hk|auto].
    + unfold StopAutoReload in Hop. destruct (ticker c); cbn in Hop;
        rewrite Hq in Hop; injection Hop as <-; left; reflexivity.
    + unfold SetInterval in Hop. destruct (ticker c) as [t0|].
      * destruct (d <=? 0)%Z; [discriminate|]. injection Hop as <-.
        right. cbn. split; [exact Hi|].
        destruct (stop_ticker_silent _ _ t0 _ Hk Hs Hp) as (k' & Hk' & Hs' & Hp').
        exists k'. split; [apply lookup_app_l_Some; exact Hk'|auto].
      * injection Hop as <-. right. split; [exact Hi|exists k; auto].
    + unfold Add in Hop. destruct (data c); [|discriminate].
      injection Hop as <-. right. split; [exact Hi|exists k; auto].
    + injection Hop as <-. right. unfold Delete.
      destruct (data c); (split; [exact Hi|exists k; auto]).
    + injection Hop as <-. right. split; [exact Hi|exists k; auto].
    + injection Hop as <-. right. split; [exact Hi|exists k; auto].
  - inversion Hbg as [c0 t' k' Ht' Hs'|c0 j Hj|c0 j t' Hj Ht'|c0 j t' k' Hj Ht' Hp'
                     |c0 j t' Hj Hq'|c0 j Hj|c0 j Hj|c0 j t' Hj Ht']; subst.
    + right. split; [exact Hi|].
      apply (set_pending_silent _ _ t' true _ Hk Hs Hp). left.
      intros ->. rewrite Hk in Ht'. injection Ht' as <-. congruence.
    + right. assert (j <> i) by congruence. cbn.
      rewrite list_lookup_insert_ne by congruence. split; [exact Hi|exists k; auto].
    + assert (j <> i) by (intros ->; rewrite Hi in Hj; injection Hj as <-;
                          rewrite Hk in Ht'; injection Ht' as <-; congruence).
      right. cbn. rewrite list_lookup_insert_ne by congruence.
      split; [exact Hi|].
      exact (set_pending_silent _ _ t' false _ Hk Hs Hp (or_intror eq_refl)).
    + congruence.
    + right. assert (j <> i) by congruence. cbn.
      rewrite list_lookup_insert_ne by congruence.
      rewrite Load_tasks, Load_tickers. split; [exact Hi|exists k; auto].
    + right. assert (j <> i) by congruence. cbn.
      rewrite list_lookup_insert_ne by congruence. split; [exact Hi|].
      exact (stop_ticker_silent _ _ t' _ Hk Hs Hp).
Qed.

Lemma filter_length_two {A} (f : A -> bool) (l : list A) i j x y :
  i <> j -> l !! i = Some x -> l !! j = Some y -> f x = true -> f y = true ->
  (2 <= length (List.filter f l))%nat.
Proof.
  revert i j. induction l as [|z l IH]; intros [|i] [|j] Hne Hi Hj Hx Hy;
    cbn in *; try discriminate; try congruence.
  - injection Hi as ->. rewrite Hx. cbn.
    pose proof (ConcProps.filter_length_in f l j y Hj Hy). lia.
  - injection Hj as ->. rewrite Hy. cbn.
    pose proof (ConcProps.filter_length_in f l i x Hi Hx). lia.
  - assert (i <> j) by congruence. specialize (IH i j H Hi Hj Hx Hy).
    destruct (f z); cbn; lia.
Qed.

(** [Add] panics exactly when [c.data] is a nil map; otherwise it stores
    [value] under [key] and leaves every other key as it was. *)
Theorem Add_spec (c : cache (T := T)) k v :
  match data c with
  | None => Add c k v = Panic "assignment to entry in nil map"
  | Some _ =>
      exists c', Add c k v = Ok c' /\ cur_map c' = <[k := v]> (cur_map c) /\
        forall k', k' <> k -> Get zero c' k' = Get zero c k'
  end.
Proof.
  destruct (data c) as [l|] eqn:D.
  - destruct (Add_Some c l k v D) as (c' & H & Hm & _).
    exists c'. split; [exact H|]. split; [exact Hm|].
    intros k' Hk. rewrite !Get_cur_map, Hm, lookup_insert_ne by congruence.
    reflexivity.
  - unfold Add. rewrite D. reflexivity.
Qed.

(** [Delete] never panics, a nil map included: it removes [key] from the
    contents and leaves every other key as it was. *)
Theorem Delete_spec (c : cache (T := T)) k :
  cur_map (Delete c k) = delete k (cur_map c) /\
  forall k', k' <> k -> Get zero (Delete c k) k' = Get zero c k'.
Proof.
  destruct (Delete_cur c k) as [Hm _]. split; [exact Hm|].
  intros k' Hk. rewrite !Get_cur_map, Hm, lookup_delete_ne by congruence.
  reflexivity.
Qed.

(** After [Clear] the cache is empty and holds a fresh non-nil map: every
    [Get] misses, and a following [Add] succeeds and is visible, even when
    [c.data] was nil before. *)
Theorem Clear_spec (c : cache (T := T)) :
  cur_map (Clear c) = ∅ /\ (forall k, Get zero (Clear c) k = (zero, false)) /\
  forall k v, exists c', Add (Clear c) k v = Ok c' /\ Get zero c' k = (v, true).
Proof.
  assert (Hm : cur_map (Clear c) = ∅).
  { unfold Clear, alloc, cur_map, map_at; cbn. rewrite lookup_insert_eq. reflexivity. }
  split; [exact Hm|]. split.
  - intros k. rewrite Get_cur_map, Hm, lookup_empty. reflexivity.
  - intros k v.
    destruct (Add_Some (Clear c) (next_loc c) k v) as (c' & H & _); [reflexivity|].
    exists c'. split; [exact H|]. exact (Props.Add_Get zero _ _ k v H).
Qed.

(** On a non-nil map, point mutations compose as map updates: a second
    [Add] of a key overrides the first, [Delete] undoes an [Add] of the
    same key, [Add] after [Delete] of the key is the [Add] alone, and
    [Add]s of different keys commute. *)
Theorem Add_Delete_compose (c : cache (T := T)) k k' v v' :
  data c <> None ->
  (exists c1 c2, Add c k v = Ok c1 /\ Add c1 k v' = Ok c2 /\
     cur_map c2 = <[k := v']> (cur_map c)) /\
  (exists c1, Add c k v = Ok c1 /\ cur_map (Delete c1 k) = cur_map (Delete c k)) /\
  (exists c1, Add (Delete c k) k v = Ok c1 /\ cur_map c1 = <[k := v]> (cur_map c)) /\
  (k <> k' -> exists c1 c2 c3 c4,
     Add c k v = Ok c1 /\ Add c1 k' v' = Ok c2 /\
     Add c k' v' = Ok c3 /\ Add c3 k v = Ok c4 /\ cur_map c2 = cur_map c4).
Proof.
  intros Hn. destruct (data c) as [l|] eqn:D; [|congruence].
  destruct (Add_Some c l k v D) as (c1 & H1 & Hm1 & Hd1).
  rewrite D in Hd1.
  destruct (Add_Some c1 l k v' Hd1) as (c2 & H2 & Hm2 & _).
  destruct (Delete_cur c k) as [HmD HdD]. rewrite D in HdD.
  destruct (Delete_cur c1 k) as [HmD1 _].
  split; [|split; [|split]].
  - exists c1, c2. split; [exact H1|]. split; [exact H2|].
    rewrite Hm2, Hm1. apply insert_insert_eq.
  - exists c1. split; [exact H1|]. rewrite HmD1, HmD, Hm1. apply delete_insert_eq.
  - destruct (Add_Some (Delete c k) l k v HdD) as (c3 & H3 & Hm3 & _).
    exists c3. split; [exact H3|]. rewrite Hm3, HmD. apply insert_delete_eq.
  - intros Hk.
    destruct (Add_Some c1 l k' v' Hd1) as (c2' & H2' & Hm2' & _).
    destruct (Add_Some c l k' v' D) as (c3 & H3 & Hm3 & Hd3). rewrite D in Hd3.
    destruct (Add_Some c3 l k v Hd3) as (c4 & H4 & Hm4 & _).
    exists c1, c2', c3, c4. repeat split; try assumption.
    rewrite Hm2', Hm4, Hm1, Hm3. apply insert_insert_ne. congruence.
Qed.

(** On every cache reachable from [NewCache], [GetAll] returns a fresh
    non-nil map holding exactly the current contents (an empty map for a
    nil [c.data]) that the cache does not hold, and changes no other map. *)
Theorem GetAll_reachable_copy (ld : nat -> load_outcome (T := T)) iv
    (c : cache (T := T)) :
  rtc sys_step (NewCache ld iv) c ->
  let '(c1, r) := GetAll c in
  heap c1 !! r = Some (cur_map c) /\ data c1 = data c /\ data c1 <> Some r /\
  cur_map c1 = cur_map c /\ (forall l, l <> r -> heap c1 !! l = heap c !! l).
Proof.
  intros Hr. pose proof (wf_reachable ld iv c Hr) as Hwf.
  unfold GetAll, alloc; cbn.
  assert (Hd : data c <> Some (next_loc c)) by (intros E; apply Hwf in E; lia).
  split; [apply lookup_insert_eq|]. split; [reflexivity|]. split; [exact Hd|].
  split.
  - unfold cur_map, map_at; cbn. destruct (data c) as [l|]; [|reflexivity].
    rewrite lookup_insert_ne by congruence. reflexivity.
  - intros l Hl. apply lookup_insert_ne. congruence.
Qed.

(** [Find] returns the matching values in the order its [range] visits
    them, and [FindOne] over the same order returns the first of them, or
    the zero value with [false] when [Find] would return nothing. *)
Theorem Find_order_FindOne_first (c : cache (T := T)) (p : T -> bool)
    (entries : list (string * T)) :
  Find c p entries = List.filter p (map snd entries) /\
  FindOne zero c p entries = match Find c p entries with
                             | [] => (zero, false)
                             | v :: _ => (v, true)
                             end.
Proof.
  assert (E : Find c p entries = List.filter p (map snd entries))
    by (unfold Find; rewrite Props.find_loop_app; reflexivity).
  split; [exact E|]. rewrite E. unfold FindOne. clear E.
  induction entries as [|[k v] l IH]; cbn; [reflexivity|].
  destruct (p v); [reflexivity|exact IH].
Qed.

(** With no ticker running, [SetInterval] only records the interval (any
    value, a non-positive one too): no ticker, no goroutine, contents
    untouched. The next [StartAutoReload] then ticks with the new period,
    or panics if it is not positive. *)
Theorem SetInterval_idle (c : cache (T := T)) d :
  ticker c = None ->
  exists c1, SetInterval c d = Ok c1 /\ interval c1 = d /\ ticker c1 = None /\
    tickers c1 = tickers c /\ tasks c1 = tasks c /\ heap c1 = heap c /\
    data c1 = data c /\
    ((0 < d)%Z -> exists c2, StartAutoReload c1 = Ok c2 /\
        ticker c2 = Some (length (tickers c)) /\
        tickers c2 !! length (tickers c) = Some (new_ticker d) /\
        tasks c2 = tasks c ++ [PLoop]) /\
    ((d <= 0)%Z -> StartAutoReload c1 = Panic "non-positive interval for NewTicker").
Proof.
  intros Hn. unfold SetInterval. rewrite Hn. eexists.
  split; [reflexivity|]. cbn. repeat (split; [reflexivity|]). split.
  - intros Hd. unfold StartAutoReload; cbn.
    destruct (d <=? 0)%Z eqn:E; [lia|]. eexists. split; [reflexivity|]. cbn.
    split; [reflexivity|]. split; [|reflexivity].
    apply list_lookup_middle. reflexivity.
  - intros Hd. unfold StartAutoReload; cbn.
    destruct (d <=? 0)%Z eqn:E; [reflexivity|lia].
Qed.

(** A goroutine blocked in its [select] on [c.ticker.C] keeps waiting on
    the channel it evaluated there; [SetInterval] stops that ticker and
    installs another one, so from then on, in every interleaving, that
    goroutine stays blocked (it never reloads again) until [c.quit] is
    closed. *)
Theorem SetInterval_strands_waiting_task (c c1 c' : cache (T := T)) i t d :
  tasks c !! i = Some (PSelect t) -> ticker c = Some t ->
  (t < length (tickers c))%nat -> SetInterval c d = Ok c1 ->
  rtc sys_step c1 c' -> quit_closed c' = false ->
  tasks c' !! i = Some (PSelect t).
Proof.
  intros Hi Ht Hlen Hset Hr.
  assert (H1 : quit_closed c1 = true \/
               (tasks c1 !! i = Some (PSelect t) /\
                exists k, tickers c1 !! t = Some k /\ tk_stopped k = true /\
                          tk_pending k = false)).
  { unfold SetInterval in Hset. rewrite Ht in Hset.
    destruct (d <=? 0)%Z; [discriminate|]. injection Hset as <-.
    right. cbn. split; [exact Hi|].
    destruct (stop_ticker_at _ _ Hlen) as (k & Hk & Hs & Hp).
    exists k. split; [apply lookup_app_l_Some; exact Hk|auto]. }
  clear Hset Hi Ht Hlen. revert H1.
  induction Hr as [c1|c1 c2 c3 Hst _ IH]; intros H1 Hq.
  - destruct H1 as [H1|[Hi _]]; [congruence|exact Hi].
  - apply IH; [|exact Hq].
    destruct (quit_closed c1) eqn:Q.
    + left. eapply Props.sys_step_quit_closed; eassumption.
    + destruct H1 as [H1|[Hi Hk]]; [discriminate|].
      exact (silent_step c1 c2 i t Hst Q Hi Hk).
Qed.

(** [StartAutoReload] then [StopAutoReload] before the new goroutine
    reaches its [select] leaves [c.ticker] nil: the goroutine's next step
    evaluates [c.ticker.C] and panics with a nil pointer dereference. *)
Theorem Start_Stop_nil_deref (c c1 c2 : cache (T := T)) :
  ticker c = None -> StartAutoReload c = Ok c1 -> StopAutoReload c1 = Ok c2 ->
  tasks c2 !! length (tasks c) = Some PLoop /\ ticker c2 = None /\
  bg_step c2 (Panic nil_deref).
Proof.
  intros Hn H1 H2. unfold StartAutoReload in H1. rewrite Hn in H1.
  destruct (interval c <=? 0)%Z; [discriminate|]. injection H1 as <-.
  unfold StopAutoReload in H2. cbn in H2.
  destruct (quit_closed c); [discriminate|]. injection H2 as <-.
  assert (Hl : tasks (set_timer (set_timer (set_timer c (interval c)
      (Some (length (tickers c))) (tickers c ++ [new_ticker (interval c)])
      false (tasks c ++ [PLoop])) (interval c) None
      (stop_ticker (tickers c ++ [new_ticker (interval c)]) (length (tickers c)))
      false (tasks c ++ [PLoop])) (interval c) None
      (stop_ticker (tickers c ++ [new_ticker (interval c)]) (length (tickers c)))
      true (tasks c ++ [PLoop])) !! length (tasks c) = Some PLoop)
    by (cbn; apply list_lookup_middle; reflexivity).
  split; [exact Hl|]. split; [reflexivity|].
  eapply bg_select_nil; [exact Hl|reflexivity].
Qed.

End More.

End More.

(** * Mutual exclusion under [c.mu] *)
Module ConcMore.

Import Concurrent.

Section ConcMore.

Context {T : Type}.

(** In every interleaving, while a goroutine is inside a write critical
    section ([Load]'s swap, [Add], [Delete], [Clear]) it holds [c.mu]
    alone: no [GetAll] or [Get] is inside its read section and no other
    writer is inside its critical section. *)
Theorem writer_exclusive (m0 : gmap string T) (ts : list thread) (s : state)
    i t :
  rtc cstep (init m0 ts) s -> threads s !! i = Some t -> is_writing t = true ->
  w_held s = true /\ r_count s = 0%nat /\
  (forall j t2, threads s !! j = Some t2 -> is_reading t2 = false) /\
  (forall j t2, threads s !! j = Some t2 -> is_writing t2 = true -> j = i).
Proof.
  intros Hr Hi Ht.
  destruct (ConcProps.inv_reachable m0 _ _ Hr (ConcProps.inv_init m0 ts))
    as (HL & _ & _).
  pose proof HL as (Hrc & Hw & Hx).
  pose proof (ConcProps.filter_length_in _ _ _ _ Hi Ht) as H1.
  assert (Hwh : w_held s = true)
    by (destruct (w_held s) eqn:E; [reflexivity|rewrite ?E in Hw; cbn in Hw; lia]).
  split; [exact Hwh|]. split; [exact (Hx Hwh)|]. split.
  - intros j t2 Hj. exact (ConcProps.writer_excludes_readers s i t j t2 HL Hi Ht Hj).
  - intros j t2 Hj Ht2. destruct (decide (j = i)) as [->|Hne]; [reflexivity|].
    pose proof (More.filter_length_two _ _ _ _ _ _ Hne Hj Hi Ht2 Ht).
    rewrite Hwh in Hw. lia.
Qed.

End ConcMore.

End ConcMore.

(** * The properties at concrete inputs *)
Module Witnesses.

Import Cache Scenario Props.

Lemma StopAutoReload_second_call_panics_witness :
  StopAutoReload (NewCache failing_loader 1) = Ok stopped_cache /\
  StopAutoReload stopped_cache = Panic "close of closed channel".
Proof.
  split; [reflexivity|].
  apply (StopAutoReload_second_call_panics (NewCache failing_loader 1)).
  reflexivity.
Defined.

Lemma Load_error_keeps_data_witness :
  loader (NewCache failing_loader 1) 0 = LoadErr "unavailable" /\
  (forall k, Get 0 (Load (NewCache failing_loader 1)) k =
             Get 0 (NewCache failing_loader 1) k).
Proof.
  split; [reflexivity|].
  apply (Load_error_keeps_data 0 (NewCache failing_loader 1) "unavailable").
  reflexivity.
Defined.

(** The end-to-end scenario: [Load], [Add("c", 3)], [Load] again. *)
Lemma Load_success_replaces_witness :
  exists c2,
    Add (Load (NewCache e2e_loader 1)) "c" 3 = Ok c2 /\
    Get 0 c2 "c" = (3, true) /\
    loader c2 (loader_calls c2) = LoadOk (Some {["a"%string := 10]}) /\
    cur_map (Load c2) = {["a"%string := 10]} /\
    Get 0 (Load c2) "c" = (0, false).
Proof.
  eexists. split; [reflexivity|]. split; [reflexivity|].
  split; [reflexivity|].
  match goal with
  | |- cur_map (Load ?c) = _ /\ _ =>
      exact (conj (proj1 (Load_success_replaces 0 c (Some {["a"%string := 10]}) eq_refl))
                  (proj2 (Load_success_replaces 0 c (Some {["a"%string := 10]}) eq_refl)
                     "c"%string))
  end.
Defined.

Lemma Add_after_nil_load_panics_witness :
  loader (NewCache nil_loader 1) 0 = LoadOk None /\
  Add (Load (NewCache nil_loader 1)) "k" 1 = Panic "assignment to entry in nil map".
Proof.
  split; [reflexivity|].
  apply (Add_after_nil_load_panics (NewCache nil_loader 1)). reflexivity.
Defined.

Lemma GetAll_copy_independent_witness :
  wf (NewCache e2e_loader 1) /\
  let '(c1, r) := GetAll (NewCache e2e_loader 1) in
  match run_events r [EUserSet "a" 5; ELoad; EUserDelete "a"; EAdd "b" 7] c1,
        run_events r (cache_events [EUserSet "a" 5; ELoad; EUserDelete "a"; EAdd "b" 7]) c1 with
  | Ok a, Ok b =>
      (forall k, Get 0 a k = Get 0 b k) /\
      heap a !! r = Some (apply_user [EUserSet "a" 5; ELoad; EUserDelete "a"; EAdd "b" 7]
                           (cur_map (NewCache e2e_loader 1)))
  | Panic m1, Panic m2 => m1 = m2
  | _, _ => False
  end.
Proof.
  assert (Hwf : wf (NewCache e2e_loader 1))
    by (intros l Hl; injection Hl as <-; cbn; lia).
  split; [exact Hwf|].
  exact (GetAll_copy_independent 0 (NewCache e2e_loader 1)
           [EUserSet "a" 5; ELoad; EUserDelete "a"; EAdd "b" 7] Hwf).
Defined.

Lemma Find_FindOne_spec_witness :
  range_order (Load (NewCache e2e_loader 1))
    (map_to_list (cur_map (Load (NewCache e2e_loader 1)))) /\
  Find (Load (NewCache e2e_loader 1)) (fun v => 1 <? v)
    (map_to_list (cur_map (Load (NewCache e2e_loader 1)))) ≡ₚ
    List.filter (fun v => 1 <? v)
      (map snd (map_to_list (cur_map (Load (NewCache e2e_loader 1))))) /\
  Find (Load (NewCache e2e_loader 1)) (fun v => 1 <? v)
    (map_to_list (cur_map (Load (NewCache e2e_loader 1)))) = [2] /\
  FindOne 0 (Load (NewCache e2e_loader 1)) (fun v => 1 <? v)
    (map_to_list (cur_map (Load (NewCache e2e_loader 1)))) = (2, true).
Proof.
  assert (H : range_order (Load (NewCache e2e_loader 1))
                (map_to_list (cur_map (Load (NewCache e2e_loader 1)))))
    by (unfold range_order; reflexivity).
  split; [exact H|]. split; [|split].
  - exact (proj1 (Find_FindOne_spec 0 _ (fun v => 1 <? v) _ H)).
  - vm_compute. reflexivity.
  - vm_compute. reflexivity.
Defined.

Lemma StartAutoReload_twice_one_task_witness :
  ticker waiting_cache <> None /\
  StartAutoReload waiting_cache = Ok waiting_cache /\
  ticker (NewCache failing_loader 1) = None /\
  (0 < interval (NewCache failing_loader 1))%Z /\
  exists c1, StartAutoReload (NewCache failing_loader 1) = Ok c1 /\
             tasks c1 = [PLoop] /\ ticker c1 <> None /\
             StartAutoReload c1 = Ok c1.
Proof.
  split; [discriminate|].
  split; [exact (proj1 (StartAutoReload_twice_one_task waiting_cache)
                   ltac:(discriminate))|].
  split; [reflexivity|]. split; [cbn; lia|].
  exact (proj2 (StartAutoReload_twice_one_task (NewCache failing_loader 1))
           eq_refl ltac:(cbn; lia)).
Defined.

(** C8 fails: [Start], [Stop], [Start] before the first goroutine has
    run leaves two goroutines that have not returned. *)
Lemma two_live_tasks_after_restart :
  exists c, rtc sys_step (NewCache failing_loader 1) c /\ live_tasks c = 2%nat.
Proof.
  eexists. split.
  - eapply rtc_l; [apply (sys_call CStart); reflexivity|].
    eapply rtc_l; [apply (sys_call CStop); reflexivity|].
    eapply rtc_l; [apply (sys_call CStart); reflexivity|].
    apply rtc_refl.
  - reflexivity.
Qed.

(** C10 fails: after a [Stop] with no prior [Start], a [Start] whose
    ticker fires before the goroutine reaches its [select] lets the
    [select] take the tick branch, and the goroutine calls [Load]. *)
Lemma restarted_task_loads :
  StopAutoReload (NewCache failing_loader 1) = Ok stopped_cache /\
  exists c, rtc sys_step stopped_cache c /\ auto_loads c = 1%nat /\
            quit_closed c = true.
Proof.
  split; [reflexivity|]. eexists. split.
  - eapply rtc_l; [apply (sys_call CStart); reflexivity|].
    eapply rtc_l; [apply sys_bg; eapply (bg_tick _ 0); reflexivity|].
    eapply rtc_l; [apply sys_bg; eapply (bg_select _ 0 0); reflexivity|].
    eapply rtc_l; [apply sys_bg; eapply (bg_recv_tick _ 0 0); reflexivity|].
    eapply rtc_l; [apply sys_bg; eapply (bg_load _ 0); reflexivity|].
    apply rtc_refl.
  - split; reflexivity.
Qed.

Lemma quit_stays_closed_witness :
  exists c', quit_closed stopped_cache = true /\
    rtc sys_step stopped_cache c' /\ tasks c' = [PSelect 0] /\
    bg_step c' (Ok (set_task c' 0 PQuit)).
Proof.
  eexists. split; [reflexivity|].
  assert (Hr : rtc sys_step stopped_cache
                 (set_task (set_timer stopped_cache 1 (Some 0%nat)
                              [new_ticker 1] true [PLoop]) 0 (PSelect 0))).
  { eapply rtc_l; [apply (sys_call CStart); reflexivity|].
    eapply rtc_l; [apply sys_bg; eapply (bg_select _ 0 0); reflexivity|].
    apply rtc_refl. }
  split; [exact Hr|]. split; [reflexivity|].
  exact (proj2 (quit_stays_closed stopped_cache _ eq_refl Hr) 0%nat 0%nat eq_refl).
Defined.

(** The [Load] has its map and waits for the lock while the [GetAll]
    copies: the copy is the whole pre-reload map. *)
Lemma GetAll_Get_atomic_witness :
  exists s acc,
    rtc Concurrent.cstep (Concurrent.init conc_m0 conc_threads) s /\
    Concurrent.threads s !! 0%nat =
      Some (Concurrent.TReader (Concurrent.RIter 0 [] acc)) /\
    acc = {["a"%string := 1]} /\
    acc = Concurrent.cur s /\
    exists base ms,
      (base = conc_m0 \/ exists j p, Concurrent.threads s !! j =
         Some (Concurrent.TWriter (Concurrent.WLoad (Concurrent.Loaded base)) p)) /\
      acc = Concurrent.apply_mutations ms base.
Proof.
  eassert (Hr : rtc Concurrent.cstep (Concurrent.init conc_m0 conc_threads) _).
  { eapply rtc_l; [eapply (Concurrent.st_load_call _ 1%nat); reflexivity|].
    eapply rtc_l; [eapply (Concurrent.st_rlock _ 0%nat ["a"%string]);
                   [reflexivity|reflexivity|vm_compute; reflexivity]|].
    eapply rtc_l; [eapply (Concurrent.st_copy _ 0%nat); reflexivity|].
    apply rtc_refl. }
  match type of Hr with
  | rtc _ _ ?s =>
      eassert (Hi : Concurrent.threads s !! 0%nat =
                    Some (Concurrent.TReader (Concurrent.RIter 0 [] _)))
        by reflexivity;
      exists s; eexists; split; [exact Hr|]; split; [exact Hi|];
      split; [vm_compute; reflexivity|];
      exact (proj1 (ConcProps.GetAll_Get_atomic _ _ _ Hr) _ _ _ Hi)
  end.
Defined.

End Witnesses.

(** * The further properties at concrete inputs *)
Module MoreWitnesses.

Import Cache Scenario.

Lemma Add_Delete_compose_witness :
  data (NewCache failing_loader 1) <> None /\
  exists c1 c2 c3 c4,
    Add (NewCache failing_loader 1) "a" 1 = Ok c1 /\ Add c1 "b" 2 = Ok c2 /\
    Add (NewCache failing_loader 1) "b" 2 = Ok c3 /\ Add c3 "a" 1 = Ok c4 /\
    cur_map c2 = cur_map c4.
Proof.
  split; [discriminate|].
  exact (proj2 (proj2 (proj2 (More.Add_Delete_compose
           (NewCache failing_loader 1) "a" "b" 1 2 ltac:(discriminate))))
           ltac:(discriminate)).
Defined.

Lemma GetAll_reachable_copy_witness :
  exists c, rtc sys_step (NewCache e2e_loader 5) c /\
    heap (GetAll c).1 !! (GetAll c).2 = Some (cur_map c) /\
    cur_map c = <["a"%string := 1]> {["b"%string := 2]}.
Proof.
  eassert (Hr : rtc sys_step (NewCache e2e_loader 5) _).
  { eapply rtc_l; [apply (sys_call CLoad); reflexivity|]. apply rtc_refl. }
  eexists. split; [exact Hr|].
  pose proof (More.GetAll_reachable_copy _ _ _ Hr) as H. cbv zeta in H.
  split; [exact (proj1 H)|]. vm_compute. reflexivity.
Defined.

Lemma SetInterval_idle_witness :
  ticker (NewCache failing_loader 1) = None /\
  exists c1, SetInterval (NewCache failing_loader 1) 0 = Ok c1 /\
    StartAutoReload c1 = Panic "non-positive interval for NewTicker".
Proof.
  split; [reflexivity|].
  destruct (More.SetInterval_idle (NewCache failing_loader 1) 0 eq_refl)
    as (c1 & H1 & _ & _ & _ & _ & _ & _ & _ & H2).
  exists c1. split; [exact H1|]. apply H2. lia.
Defined.

Lemma SetInterval_strands_waiting_task_witness :
  rtc sys_step (NewCache failing_loader 1) waiting_cache /\
  exists c1 c', SetInterval waiting_cache 2 = Ok c1 /\ rtc sys_step c1 c' /\
    quit_closed c' = false /\ tasks c' !! 0%nat = Some (PSelect 0).
Proof.
  split.
  - eapply rtc_l; [apply (sys_call CStart); reflexivity|].
    eapply rtc_l; [apply sys_bg; eapply (bg_select _ 0 0); reflexivity|].
    apply rtc_refl.
  - eexists. eexists. split; [reflexivity|].
    match goal with
    | |- rtc sys_step ?a _ /\ _ => eassert (Hr : rtc sys_step a _)
    end.
    { eapply rtc_l; [apply sys_bg; eapply (bg_tick _ 1); reflexivity|].
      eapply rtc_l; [apply (sys_call CLoad); reflexivity|].
      apply rtc_refl. }
    split; [exact Hr|]. split; [reflexivity|].
    exact (More.SetInterval_strands_waiting_task waiting_cache _ _ 0 0 2
             eq_refl eq_refl ltac:(cbn; lia) eq_refl Hr eq_refl).
Defined.

Lemma Start_Stop_nil_deref_witness :
  ticker (NewCache failing_loader 1) = None /\
  exists c1 c2, StartAutoReload (NewCache failing_loader 1) = Ok c1 /\
    StopAutoReload c1 = Ok c2 /\ bg_step c2 (Panic nil_deref).
Proof.
  split; [reflexivity|]. eexists. eexists.
  split; [reflexivity|]. split; [reflexivity|].
  exact (proj2 (proj2 (More.Start_Stop_nil_deref (NewCache failing_loader 1)
           _ _ eq_refl eq_refl eq_refl))).
Defined.

(** The [Load] goroutine holds [c.mu] for its swap. *)
Lemma writer_exclusive_witness :
  exists s, rtc Concurrent.cstep (Concurrent.init conc_m0 conc_threads) s /\
    Concurrent.w_held s = true /\ Concurrent.r_count s = 0%nat.
Proof.
  eassert (Hr : rtc Concurrent.cstep (Concurrent.init conc_m0 conc_threads) _).
  { eapply rtc_l; [eapply (Concurrent.st_load_call _ 1%nat); reflexivity|].
    eapply rtc_l; [eapply (Concurrent.st_lock _ 1%nat); reflexivity|].
    apply rtc_refl. }
  eexists. split; [exact Hr|].
  destruct (ConcMore.writer_exclusive _ _ _ 1%nat
              (Concurrent.TWriter (Concurrent.WLoad (Concurrent.Loaded {["a"%string := 10]}))
                 Concurrent.WLocked) Hr eq_refl eq_refl) as (H1 & H2 & _).
  split; [exact H1|exact H2].
Defined.

End MoreWitnesses.
